(** * A/B test significance notebook: a shallow embedding

    The notebook [A-B Testing/notebook.ipynb] validates a table of
    experiment rows, extracts the size and conversion rate of its two
    groups and runs a two-proportion z-test ([get_pvalue]).

    Numbers.  Python floats are modelled as real numbers with exact
    arithmetic (no rounding, no overflow); the one special value that the
    code can produce from finite inputs, NaN, is kept as a constructor of
    its own.  Group sizes are Python integers ([Z]). *)

From Stdlib Require Import Reals Lra Lia ZArith List String Bool QArith Qreals.
Import ListNotations.

Local Open Scope R_scope.

(** ** The standard normal distribution function

    [scipy.stats.norm.cdf] is library code.  Its mathematical content is
    the distribution function of the standard normal law, which is built
    here from the Riemann integral: [gauss] is the unnormalised density
    [exp (-t²/2)], [Gint x] its integral from [0] to [x], [Ginf] the
    supremum of [Gint] (half of the total mass of [gauss]), and
    [Phi x = 1/2 + Gint x / (2 * Ginf)]. *)

Module NormalCDF.

Definition gauss (t : R) : R := exp (- (t * t / 2)).

Lemma gauss_pos t : 0 < gauss t.
Proof. apply exp_pos. Qed.

Lemma gauss_le_1 t : gauss t <= 1.
Proof.
  unfold gauss. rewrite <- exp_0.
  destruct (Req_dec t 0) as [->|Hne].
  - right. apply f_equal. lra.
  - left. apply exp_increasing. nra.
Qed.

Lemma gauss_even t : gauss (- t) = gauss t.
Proof. unfold gauss. apply f_equal. field. Qed.

Lemma gauss_anti s t : Rabs s <= Rabs t -> gauss t <= gauss s.
Proof.
  intros H. unfold gauss.
  assert (Hsq : s * s <= t * t).
  { pose proof (Rabs_pos s). pose proof (Rabs_pos t).
    replace (s * s) with (Rabs s * Rabs s)
      by (unfold Rabs; destruct (Rcase_abs s); ring).
    replace (t * t) with (Rabs t * Rabs t)
      by (unfold Rabs; destruct (Rcase_abs t); ring).
    nra. }
  destruct (Rle_lt_or_eq_dec _ _ Hsq) as [Hlt|Heq].
  - left. apply exp_increasing. lra.
  - right. apply f_equal. lra.
Qed.

Lemma gauss_derivable : derivable gauss.
Proof. unfold gauss. reg. Qed.

Lemma gauss_continuity : continuity gauss.
Proof. apply derivable_continuous, gauss_derivable. Qed.

Lemma gauss_integrable (a b : R) : Riemann_integrable gauss a b.
Proof.
  destruct (Rle_dec a b) as [Hab|Hab].
  - apply continuity_implies_RiemannInt; [exact Hab|].
    intros x _. apply gauss_continuity.
  - apply RiemannInt_P1, continuity_implies_RiemannInt; [lra|].
    intros x _. apply gauss_continuity.
Qed.

(** The integral of [gauss] over [[a, b]] (negated when [b < a]). *)
Definition Gab (a b : R) : R := RiemannInt (gauss_integrable a b).

Definition Gint (x : R) : R := Gab 0 x.

Lemma Gab_chasles a b c : Gab a b + Gab b c = Gab a c.
Proof. unfold Gab. apply RiemannInt_P26. Qed.

Lemma Gab_refl a : Gab a a = 0.
Proof. unfold Gab. apply RiemannInt_P9. Qed.

Lemma Gab_swap a b : Gab a b = - Gab b a.
Proof. unfold Gab. apply RiemannInt_P8. Qed.

Lemma Gab_bounds a b l u :
  a <= b -> (forall t, a < t < b -> l <= gauss t <= u) ->
  l * (b - a) <= Gab a b <= u * (b - a).
Proof. intros Hab H. unfold Gab. now apply RiemannInt_const_bound. Qed.

Lemma Gint_0 : Gint 0 = 0.
Proof. apply Gab_refl. Qed.

Lemma Gint_diff x y : Gint y - Gint x = Gab x y.
Proof. unfold Gint. rewrite <- (Gab_chasles 0 x y). ring. Qed.

Lemma Gab_pos x y : x < y -> 0 < Gab x y.
Proof.
  intros Hxy.
  set (m := Rmax (Rabs x) (Rabs y)).
  assert (Hb : gauss m * (y - x) <= Gab x y <= 1 * (y - x)).
  { apply Gab_bounds; [lra|]. intros t Ht. split; [|apply gauss_le_1].
    apply gauss_anti.
    assert (0 <= m) by (unfold m; pose proof (Rabs_pos x);
                        pose proof (Rmax_l (Rabs x) (Rabs y)); lra).
    rewrite (Rabs_pos_eq m) by assumption.
    unfold m. pose proof (Rmax_l (Rabs x) (Rabs y)).
    pose proof (Rmax_r (Rabs x) (Rabs y)).
    revert H0 H1. unfold Rabs.
    destruct (Rcase_abs x), (Rcase_abs y), (Rcase_abs t); lra. }
  pose proof (gauss_pos m). nra.
Qed.

Lemma Gint_increasing x y : x < y -> Gint x < Gint y.
Proof. intros H. pose proof (Gab_pos x y H). pose proof (Gint_diff x y). lra. Qed.

(** *** The integral is a primitive of the density *)

Lemma gauss_near x eps :
  0 < eps ->
  exists d, 0 < d /\ forall t, Rabs (t - x) < d -> Rabs (gauss t - gauss x) < eps.
Proof.
  intros Heps.
  destruct (gauss_continuity x eps Heps) as [d [Hd H]].
  exists d. split; [lra|]. intros t Ht.
  destruct (Req_dec x t) as [<-|Hne].
  - replace (gauss x - gauss x) with 0 by ring. rewrite Rabs_R0. exact Heps.
  - apply (H t). split; [split; [exact I|exact Hne]|exact Ht].
Qed.

Lemma Gint_derivable_pt_lim x : derivable_pt_lim Gint x (gauss x).
Proof.
  intros eps Heps.
  destruct (gauss_near x (eps / 2)) as [d [Hd Hnear]]; [lra|].
  exists (mkposreal d Hd). intros h Hh Hhd. simpl in Hhd.
  rewrite Gint_diff.
  assert (Hloc : forall t, Rabs (t - x) < d ->
                           gauss x - eps / 2 <= gauss t <= gauss x + eps / 2).
  { intros t Ht. specialize (Hnear t Ht). apply Rabs_def2 in Hnear. lra. }
  set (q := Gab x (x + h) / h).
  assert (Hq : Gab x (x + h) = q * h) by (unfold q; field; exact Hh).
  assert (Hb : gauss x - eps / 2 <= q <= gauss x + eps / 2).
  { destruct (Rlt_dec 0 h) as [Hpos|Hneg].
    - rewrite (Rabs_pos_eq h) in Hhd by lra.
      assert (B := Gab_bounds x (x + h) (gauss x - eps / 2) (gauss x + eps / 2)).
      destruct B as [B1 B2]; [lra| |].
      + intros t Ht. apply Hloc. rewrite Rabs_pos_eq; lra.
      + rewrite Hq in B1, B2. split; nra.
    - assert (Hlt : h < 0) by lra.
      rewrite (Rabs_left h) in Hhd by lra.
      assert (B := Gab_bounds (x + h) x (gauss x - eps / 2) (gauss x + eps / 2)).
      destruct B as [B1 B2]; [lra| |].
      + intros t Ht. apply Hloc. rewrite Rabs_left; lra.
      + rewrite (Gab_swap (x + h) x), Hq in B1, B2. split; nra. }
  apply Rabs_def1; lra.
Qed.

Lemma Gint_derivable : derivable Gint.
Proof. intros x. exists (gauss x). apply Gint_derivable_pt_lim. Qed.

(** *** The integral is odd, because the density is even *)

Definition Gsym : R -> R := (Gint + comp Gint (- id))%F.

Lemma Gsym_derivable_pt_lim x : derivable_pt_lim Gsym x 0.
Proof.
  unfold Gsym.
  replace 0 with (gauss x + gauss ((- id)%F x) * (- 1)).
  - apply derivable_pt_lim_plus; [apply Gint_derivable_pt_lim|].
    apply derivable_pt_lim_comp.
    + apply derivable_pt_lim_opp, derivable_pt_lim_id.
    + apply Gint_derivable_pt_lim.
  - unfold opp_fct, id. rewrite gauss_even. ring.
Qed.

Lemma Gsym_derivable : derivable Gsym.
Proof. intros x. exists 0. apply Gsym_derivable_pt_lim. Qed.

Lemma Gint_odd x : Gint (- x) = - Gint x.
Proof.
  assert (Hc : constant Gsym).
  { apply (null_derivative_1 Gsym Gsym_derivable). intros y.
    apply derive_pt_eq_0, Gsym_derivable_pt_lim. }
  specialize (Hc x 0).
  unfold Gsym, plus_fct, comp, opp_fct, id in Hc.
  rewrite Ropp_0, Gint_0 in Hc. lra.
Qed.

(** *** The integral is bounded *)

Lemma gauss_inv_bound t : gauss t * (1 + t * t / 2) <= 1.
Proof.
  unfold gauss. set (u := t * t / 2).
  assert (Hu : 0 <= u) by (unfold u; nra).
  pose proof (exp_pos (- u)) as He.
  pose proof (exp_ineq1_le u) as HE.
  assert (Hprod : exp (- u) * exp u = 1).
  { rewrite <- exp_plus. replace (- u + u) with 0 by ring. apply exp_0. }
  nra.
Qed.

Lemma Gint_nat_bound (n : nat) : Gint (INR n) <= 5 - 5 / (INR n + 1).
Proof.
  induction n as [|n IH].
  - simpl. rewrite Gint_0. right. field.
  - rewrite S_INR. set (y := INR n) in *.
    assert (Hy : 0 <= y) by apply pos_INR.
    assert (Hstep : Gab y (y + 1) <= gauss y * (y + 1 - y)).
    { apply (Gab_bounds y (y + 1) 0 (gauss y)); [lra|].
      intros t Ht. split; [left; apply gauss_pos|].
      apply gauss_anti. rewrite !Rabs_pos_eq; lra. }
    pose proof (Gint_diff y (y + 1)) as Hd.
    pose proof (gauss_inv_bound y) as Hg.
    pose proof (gauss_pos y) as Hgp.
    assert (Hfrac : 5 / (y + 1) - 5 / (y + 1 + 1) = 5 / ((y + 1) * (y + 2)))
      by (field; lra).
    assert (Hle : gauss y <= 5 / ((y + 1) * (y + 2))).
    { apply Rmult_le_reg_r with ((y + 1) * (y + 2)); [nra|].
      replace (5 / ((y + 1) * (y + 2)) * ((y + 1) * (y + 2))) with 5
        by (field; lra).
      nra. }
    lra.
Qed.

Lemma Gint_le_5 x : Gint x <= 5.
Proof.
  destruct (Rle_dec x 0) as [Hx|Hx].
  - destruct Hx as [Hx| ->].
    + pose proof (Gint_increasing x 0 Hx). rewrite Gint_0 in *. lra.
    + rewrite Gint_0. lra.
  - assert (Hpos : 0 < x) by lra.
    destruct (archimed_cor1 (/ x)) as [n [Hn Hn0]].
    { now apply Rinv_0_lt_compat. }
    assert (HN : 0 < INR n) by (apply lt_0_INR; lia).
    assert (Hxn : x < INR n).
    { assert (/ INR n * INR n = 1) by (field; lra).
      assert (/ x * x = 1) by (field; lra).
      pose proof (Rinv_0_lt_compat _ HN). nra. }
    pose proof (Gint_increasing x (INR n) Hxn).
    pose proof (Gint_nat_bound n).
    assert (0 < 5 / (INR n + 1)) by (apply Rdiv_lt_0_compat; lra).
    lra.
Qed.

(** *** Normalisation *)

Definition Gint_range (y : R) : Prop := exists x, y = Gint x.

Lemma Gint_range_bound : bound Gint_range.
Proof. exists 5. intros y [x ->]. apply Gint_le_5. Qed.

Lemma Gint_range_inhabited : exists y, Gint_range y.
Proof. exists (Gint 0), 0. reflexivity. Qed.

(** Half of the total mass of [gauss]: the limit of [Gint] at infinity
    (the Gaussian integral, [sqrt (PI / 2)]). *)
Definition Ginf : R :=
  proj1_sig (completeness Gint_range Gint_range_bound Gint_range_inhabited).

Lemma Ginf_lub : is_lub Gint_range Ginf.
Proof.
  unfold Ginf.
  destruct (completeness Gint_range Gint_range_bound Gint_range_inhabited).
  assumption.
Qed.

Lemma Gint_le_Ginf x : Gint x <= Ginf.
Proof. apply (proj1 Ginf_lub). now exists x. Qed.

Lemma Ginf_pos : 0 < Ginf.
Proof.
  pose proof (Gint_le_Ginf 1). pose proof (Gint_increasing 0 1 Rlt_0_1).
  rewrite Gint_0 in *. lra.
Qed.

(** The distribution function of the standard normal law. *)
Definition Phi (x : R) : R := 1 / 2 + Gint x / (2 * Ginf).

Lemma Phi_0 : Phi 0 = 1 / 2.
Proof. unfold Phi. rewrite Gint_0. pose proof Ginf_pos. field. lra. Qed.

Lemma Phi_increasing x y : x < y -> Phi x < Phi y.
Proof.
  intros H. unfold Phi. pose proof Ginf_pos as Hp.
  pose proof (Gint_increasing x y H) as Hi.
  apply Rplus_lt_compat_l. unfold Rdiv.
  apply Rmult_lt_compat_r; [|exact Hi].
  apply Rinv_0_lt_compat. lra.
Qed.

Lemma Phi_monotone x y : x <= y -> Phi x <= Phi y.
Proof.
  intros [H| ->]; [left; now apply Phi_increasing|right; reflexivity].
Qed.

Lemma Phi_opp x : Phi (- x) = 1 - Phi x.
Proof. unfold Phi. rewrite Gint_odd. pose proof Ginf_pos. field. lra. Qed.

Lemma Phi_le_1 x : Phi x <= 1.
Proof.
  unfold Phi. pose proof Ginf_pos as Hp. pose proof (Gint_le_Ginf x) as Hx.
  assert (Gint x / (2 * Ginf) <= 1 / 2).
  { apply Rmult_le_reg_r with (2 * Ginf); [lra|].
    replace (Gint x / (2 * Ginf) * (2 * Ginf)) with (Gint x) by (field; lra).
    lra. }
  lra.
Qed.

Lemma Phi_nonneg x : 0 <= Phi x.
Proof. pose proof (Phi_le_1 (- x)). rewrite Phi_opp in *. lra. Qed.

End NormalCDF.

(** ** Python values and computations *)

(** A float: a finite number or NaN. *)
Inductive pyfloat : Type :=
| Fin (r : R)
| NaN.

(** What running a piece of the notebook produces: a value, an exception
    (named by its Python class), or a complex number where the code goes
    on to use it as a float, which this model does not follow further. *)
Inductive comp (A : Type) : Type :=
| Val (a : A)
| Exn (e : string)
| Cplx.

Arguments Val {A} a.
Arguments Exn {A} e.
Arguments Cplx {A}.

Definition bind {A B : Type} (c : comp A) (k : A -> comp B) : comp B :=
  match c with
  | Val a => k a
  | Exn e => Exn e
  | Cplx => Cplx
  end.

Notation "x <- c ;; k" := (bind c (fun x => k))
  (at level 61, c at next level, right associativity).

(** [x / n] with [n] an [int]: true division, [ZeroDivisionError] at 0. *)
Definition py_div (x : R) (n : Z) : comp R :=
  if Z.eqb n 0 then Exn "ZeroDivisionError"%string else Val (x / IZR n).

(** [x ** 0.5] on a float: the square root, and a complex number when
    [x] is negative. *)
Definition pow_half (x : R) : comp R :=
  if Rle_dec 0 x then Val (sqrt x) else Cplx.

(** [c * p] with [c] a finite number: NaN propagates. *)
Definition py_mul (c : R) (p : pyfloat) : pyfloat :=
  match p with
  | Fin r => Fin (c * r)
  | NaN => NaN
  end.

(** [p >= c]: every comparison with NaN is false. *)
Definition py_ge (p : pyfloat) (c : R) : bool :=
  match p with
  | Fin r => if Rle_dec c r then true else false
  | NaN => false
  end.

(** [stats.norm.cdf(x, loc, scale)]: the distribution function of the
    normal law of mean [loc] and standard deviation [scale]; SciPy answers
    NaN when [scale > 0] does not hold. *)
Definition norm_cdf (x loc scale : R) : pyfloat :=
  if Rlt_dec 0 scale then Fin (NormalCDF.Phi ((x - loc) / scale)) else NaN.

(** ** The significance test (cell 6) *)

(** The [if p_value >= 0.05] block. *)
Definition verdict (p_value : pyfloat) : string :=
  if py_ge p_value (5 / 100) then "Not Significant"%string
  else "Significant Result"%string.

Definition get_pvalue (con_conv test_conv : R) (con_size test_size : Z)
  : comp (pyfloat * string) :=
  let lift := - Rabs (test_conv - con_conv) in
  inv_con <- py_div 1 con_size ;;
  let scale_one := con_conv * (1 - con_conv) * inv_con in
  inv_test <- py_div 1 test_size ;;
  let scale_two := test_conv * (1 - test_conv) * inv_test in
  scale_val <- pow_half (scale_one + scale_two) ;;
  let p_value := py_mul 2 (norm_cdf lift 0 scale_val) in
  Val (p_value, verdict p_value).

(** ** The quantities of the specification *)

Definition lift (rate_control rate_test : R) : R :=
  - Rabs (rate_test - rate_control).

Definition scale_of (rate : R) (size : Z) : R :=
  rate * (1 - rate) / IZR size.

Definition standard_error (rate_control rate_test : R)
           (size_control size_test : Z) : R :=
  sqrt (scale_of rate_control size_control + scale_of rate_test size_test).

(** The two-tailed probability [2 * Φ(lift; mean=0, scale=standard_error)]. *)
Definition two_tailed (rate_control rate_test : R)
           (size_control size_test : Z) : R :=
  2 * NormalCDF.Phi (lift rate_control rate_test
                     / standard_error rate_control rate_test
                                      size_control size_test).

Definition valid_rate (r : R) : Prop := 0 <= r <= 1.

(** ** The dataset *)

Record row : Type := mkRow {
  uid : string;
  date : string;
  group : string;
  converted : Z
}.

Definition dataframe : Type := list row.

Section Unique.
Context {A : Type} (eqb : A -> A -> bool).

(** [Series.unique()]: the distinct values in order of first appearance. *)
Fixpoint unique_from (seen l : list A) : list A :=
  match l with
  | [] => []
  | x :: t =>
      if existsb (eqb x) seen then unique_from seen t
      else x :: unique_from (x :: seen) t
  end.

Definition unique (l : list A) : list A := unique_from [] l.

(** [Series.is_unique] *)
Definition is_unique (l : list A) : bool :=
  Nat.eqb (List.length (unique l)) (List.length l).

(** [Series.nunique()] *)
Definition nunique (l : list A) : nat := List.length (unique l).

Definition count_occ_b (x : A) (l : list A) : Z :=
  Z.of_nat (List.length (filter (eqb x) l)).
End Unique.

(** ** The validation cell (cell 2) *)

(** [(arr == [0, 1]).all()] for a one-dimensional integer array [arr].
    NumPy compares elementwise when [arr] has two elements and broadcasts a
    single element against both entries of the list.  For any other length
    the shapes are incompatible, [==] yields no boolean array and the line
    ends in an exception, whose class depends on the NumPy version:
    [None]. *)
Definition eq_01_all (arr : list Z) : option bool :=
  match arr with
  | [x; y] => Some (Z.eqb x 0 && Z.eqb y 1)
  | [x] => Some (Z.eqb x 0 && Z.eqb x 1)
  | _ => None
  end.

(** [df["uid"].is_unique] *)
Definition check_uid (df : dataframe) : bool :=
  is_unique String.eqb (map uid df).

(** [df["group"].nunique() == 2] *)
Definition check_group (df : dataframe) : bool :=
  Nat.eqb (nunique String.eqb (map group df)) 2.

(** [(df["converted"].unique() == [0, 1]).all()] *)
Definition check_converted (df : dataframe) : option bool :=
  eq_01_all (unique Z.eqb (map converted df)).

(** The column holds nothing but the codes 0 and 1. *)
Definition only_0_and_1 (col : list Z) : bool :=
  forallb (fun v => Z.eqb v 0 || Z.eqb v 1) col.

(** ** The group extraction cell (cell 5) *)

(** Insertion that keeps a list sorted by decreasing count; among equal
    counts the element inserted ([x], which comes earlier in the data)
    stays in front. *)
Fixpoint insert_by_count (x : string * Z) (l : list (string * Z))
  : list (string * Z) :=
  match l with
  | [] => [x]
  | y :: t =>
      if Z.ltb (snd x) (snd y) then y :: insert_by_count x t
      else x :: y :: t
  end.

(** [Series.value_counts()]: one entry per distinct label, most frequent
    first; labels of equal frequency are kept in order of first
    appearance. *)
Definition value_counts (col : list string) : list (string * Z) :=
  fold_right insert_by_count []
    (map (fun l => (l, count_occ_b String.eqb l col)) (unique String.eqb col)).

Fixpoint insert_by_label (x : string) (l : list string) : list string :=
  match l with
  | [] => [x]
  | y :: t => if String.ltb y x then y :: insert_by_label x t else x :: y :: t
  end.

(** The group keys of [groupby]: the distinct labels in increasing order. *)
Definition sorted_labels (col : list string) : list string :=
  fold_right insert_by_label [] (unique String.eqb col).

(** A row of [cr]: its index label in the [RangeIndex], the group, and the
    aggregates [count] and [sum] of [converted] with their quotient. *)
Record cr_row : Type := mkCr {
  cr_index : Z;
  cr_group : string;
  cr_count : Z;
  cr_sum : Z;
  cr_conv : Q
}.

Definition rows_of (label : string) (df : dataframe) : dataframe :=
  filter (fun r => String.eqb label (group r)) df.

Definition group_size (label : string) (df : dataframe) : Z :=
  Z.of_nat (List.length (rows_of label df)).

Definition group_sum (label : string) (df : dataframe) : Z :=
  fold_right Z.add 0%Z (map converted (rows_of label df)).

(** The conversion rate of a group, [sum / count]. *)
Definition group_conv (label : string) (df : dataframe) : Q :=
  (inject_Z (group_sum label df) / inject_Z (group_size label df))%Q.

Fixpoint number_rows (i : Z) (labels : list string) (df : dataframe)
  : list cr_row :=
  match labels with
  | [] => []
  | l :: t =>
      mkCr i l (group_size l df) (group_sum l df) (group_conv l df)
      :: number_rows (i + 1)%Z t df
  end.

(** [df.groupby(by=['group'], as_index=False).agg(...)] with the added
    column [conv]. *)
Definition groupby_conv (df : dataframe) : list cr_row :=
  number_rows 0%Z (sorted_labels (map group df)) df.

(** [s[i]] on the [value_counts] series, whose index holds strings: an
    integer key is taken as a position. *)
Definition at_position (s : list (string * Z)) (i : nat) : comp Z :=
  match nth_error s i with
  | Some (_, n) => Val n
  | None => Exn "IndexError"%string
  end.

(** [cr[cr.group == g].conv[k]]: the rows of group [g] keep their index
    labels and [k] is looked up among these labels. *)
Definition conv_at (cr : list cr_row) (g : string) (k : Z) : comp Q :=
  match find (fun r => Z.eqb (cr_index r) k)
             (filter (fun r => String.eqb (cr_group r) g) cr) with
  | Some r => Val (cr_conv r)
  | None => Exn "KeyError"%string
  end.

Record groups : Type := mkGroups {
  a : string;
  b : string;
  a_size : Z;
  b_size : Z;
  a_conv : Q;
  b_conv : Q
}.

Definition extract_groups (df : dataframe) : comp groups :=
  match unique String.eqb (map group df) with
  | [a; b] =>
      let counts := value_counts (map group df) in
      a_size <- at_position counts 0 ;;
      b_size <- at_position counts 1 ;;
      let cr := groupby_conv df in
      a_conv <- conv_at cr a 0 ;;
      b_conv <- conv_at cr b 1 ;;
      Val (mkGroups a b a_size b_size a_conv b_conv)
  | _ => Exn "ValueError"%string
  end.

(** [p_value = get_pvalue(a_conv, b_conv, a_size, b_size)].  The sizes
    are counts of rows that exist, hence at least 1, and the rates lie in
    [0, 1]: on such arguments NumPy scalars and Python numbers compute
    alike. *)
Definition run_test (df : dataframe) : comp (pyfloat * string) :=
  g <- extract_groups df ;;
  get_pvalue (Q2R (a_conv g)) (Q2R (b_conv g)) (a_size g) (b_size g).

(** ** Properties of the significance test *)

Section GetPvalue.

Import NormalCDF.

Variables (rc rt : R) (nc nt : Z).

(** The sum of the two variance terms as the code writes it. *)
Lemma radicand_eq :
  (0 < nc)%Z -> (0 < nt)%Z ->
  rc * (1 - rc) * (1 / IZR nc) + rt * (1 - rt) * (1 / IZR nt)
  = scale_of rc nc + scale_of rt nt.
Proof.
  intros Hc Ht. apply IZR_lt in Hc, Ht. unfold scale_of. field. lra.
Qed.

Lemma scale_of_nonneg r n : valid_rate r -> (0 < n)%Z -> 0 <= scale_of r n.
Proof.
  intros [H0 H1] Hn. apply IZR_lt in Hn. unfold scale_of.
  apply Rmult_le_pos; [nra|]. left. now apply Rinv_0_lt_compat.
Qed.

Lemma standard_error_pos :
  standard_error rc rt nc nt <> 0 -> 0 < scale_of rc nc + scale_of rt nt.
Proof.
  intros Hse. destruct (Rlt_dec 0 (scale_of rc nc + scale_of rt nt)) as [H|H].
  - exact H.
  - exfalso. apply Hse. unfold standard_error. apply sqrt_neg_0. lra.
Qed.

(** With rates in [0,1] the pooled standard error vanishes exactly when
    each rate is 0 or 1. *)
Lemma standard_error_zero_iff :
  (0 < nc)%Z -> (0 < nt)%Z -> valid_rate rc -> valid_rate rt ->
  standard_error rc rt nc nt = 0
  <-> (rc = 0 \/ rc = 1) /\ (rt = 0 \/ rt = 1).
Proof.
  intros Hc Ht Vc Vt.
  pose proof (scale_of_nonneg rc nc Vc Hc) as Sc.
  pose proof (scale_of_nonneg rt nt Vt Ht) as St.
  apply IZR_lt in Hc, Ht. unfold standard_error.
  assert (Z0 : forall r n, 0 < IZR n -> scale_of r n = 0 <-> r = 0 \/ r = 1).
  { intros r n Hn. unfold scale_of. split.
    - intros E. assert (r * (1 - r) = 0).
      { apply Rmult_eq_reg_r with (/ IZR n);
          [|apply Rgt_not_eq, Rinv_0_lt_compat, Hn].
        rewrite Rmult_0_l. exact E. }
      destruct (Rmult_integral _ _ H); [now left|right; lra].
    - intros [-> | ->]; field; lra. }
  split.
  - intros E. apply sqrt_eq_0 in E; [|lra].
    split; [apply (Z0 rc nc Hc)|apply (Z0 rt nt Ht)]; lra.
  - intros [Ec Et]. apply (Z0 _ _ Hc) in Ec. apply (Z0 _ _ Ht) in Et.
    rewrite Ec, Et, Rplus_0_r. apply sqrt_0.
Qed.

Lemma lift_nonpos : lift rc rt <= 0.
Proof. unfold lift. pose proof (Rabs_pos (rt - rc)). lra. Qed.

(** The steps of [get_pvalue] up to the call of [norm.cdf], for positive
    sizes and a non-negative sum of variances. *)
Lemma get_pvalue_unfold :
  (0 < nc)%Z -> (0 < nt)%Z -> 0 <= scale_of rc nc + scale_of rt nt ->
  get_pvalue rc rt nc nt =
  let p := py_mul 2 (norm_cdf (lift rc rt) 0 (standard_error rc rt nc nt)) in
  Val (p, verdict p).
Proof.
  intros Hc Ht Hrad. unfold get_pvalue, py_div.
  destruct (Z.eqb_spec nc 0) as [E|_]; [lia|].
  destruct (Z.eqb_spec nt 0) as [E|_]; [lia|].
  cbn [bind]. rewrite (radicand_eq Hc Ht). unfold pow_half.
  destruct (Rle_dec 0 (scale_of rc nc + scale_of rt nt)) as [_|N]; [|contradiction].
  reflexivity.
Qed.

Lemma get_pvalue_regular :
  (0 < nc)%Z -> (0 < nt)%Z -> 0 < scale_of rc nc + scale_of rt nt ->
  get_pvalue rc rt nc nt =
  Val (Fin (two_tailed rc rt nc nt), verdict (Fin (two_tailed rc rt nc nt))).
Proof.
  intros Hc Ht Hrad. rewrite get_pvalue_unfold by (assumption || lra).
  cbv zeta. unfold norm_cdf.
  assert (Hse : 0 < standard_error rc rt nc nt)
    by (unfold standard_error; now apply sqrt_lt_R0).
  destruct (Rlt_dec 0 (standard_error rc rt nc nt)) as [_|N]; [|contradiction].
  cbn [py_mul]. unfold two_tailed.
  replace ((lift rc rt - 0) / standard_error rc rt nc nt)
    with (lift rc rt / standard_error rc rt nc nt) by (field; lra).
  reflexivity.
Qed.

Lemma get_pvalue_degenerate :
  (0 < nc)%Z -> (0 < nt)%Z -> scale_of rc nc + scale_of rt nt = 0 ->
  get_pvalue rc rt nc nt = Val (NaN, "Significant Result"%string).
Proof.
  intros Hc Ht Hrad. rewrite get_pvalue_unfold by (assumption || lra).
  cbv zeta. unfold standard_error, norm_cdf. rewrite Hrad, sqrt_0.
  destruct (Rlt_dec 0 0) as [F|_]; [lra|]. reflexivity.
Qed.

Lemma two_tailed_bounds :
  0 < scale_of rc nc + scale_of rt nt -> 0 <= two_tailed rc rt nc nt <= 1.
Proof.
  intros Hrad. unfold two_tailed.
  assert (Hse : 0 < standard_error rc rt nc nt)
    by (unfold standard_error; now apply sqrt_lt_R0).
  set (z := lift rc rt / standard_error rc rt nc nt).
  assert (Hz : z <= 0).
  { unfold z, Rdiv. pose proof lift_nonpos.
    pose proof (Rinv_0_lt_compat _ Hse). nra. }
  pose proof (Phi_nonneg z). pose proof (Phi_monotone z 0 Hz) as Hm.
  rewrite Phi_0 in Hm. lra.
Qed.

End GetPvalue.

Arguments radicand_eq {rc rt nc nt}.
Arguments scale_of_nonneg {r n}.
Arguments standard_error_pos {rc rt nc nt}.
Arguments standard_error_zero_iff {rc rt nc nt}.
Arguments get_pvalue_unfold {rc rt nc nt}.
Arguments get_pvalue_regular {rc rt nc nt}.
Arguments get_pvalue_degenerate {rc rt nc nt}.
Arguments two_tailed_bounds {rc rt nc nt}.

Lemma verdict_fin p :
  verdict (Fin p) = (if Rle_dec (5 / 100) p then "Not Significant"
                     else "Significant Result")%string.
Proof. unfold verdict, py_ge. now destruct (Rle_dec (5 / 100) p). Qed.

Lemma verdict_significant_iff p :
  verdict (Fin p) = "Significant Result"%string <-> p < 5 / 100.
Proof.
  rewrite verdict_fin. destruct (Rle_dec (5 / 100) p); split; intros H;
    try discriminate; try reflexivity; lra.
Qed.

Lemma verdict_not_significant_iff p :
  verdict (Fin p) = "Not Significant"%string <-> 5 / 100 <= p.
Proof.
  rewrite verdict_fin. destruct (Rle_dec (5 / 100) p); split; intros H;
    try discriminate; try reflexivity; lra.
Qed.

(** ** The claims about [get_pvalue] *)

(** C1: for positive sizes (and rates in [0,1]), [get_pvalue] computes
    the lift [-|rate_test - rate_control|], the variance terms
    [rate * (1 - rate) / size], the pooled standard error
    [sqrt (scale_control + scale_test)] and returns
    [2 * norm.cdf(lift, 0, standard_error)], which is
    [2 * Φ(lift / standard_error)] whenever the standard error is not 0. *)
Theorem get_pvalue_two_tailed_formula (rc rt : R) (nc nt : Z) :
  (0 < nc)%Z -> (0 < nt)%Z -> valid_rate rc -> valid_rate rt ->
  let d := - Rabs (rt - rc) in
  let scale_control := rc * (1 - rc) / IZR nc in
  let scale_test := rt * (1 - rt) / IZR nt in
  let se := sqrt (scale_control + scale_test) in
  let p := py_mul 2 (norm_cdf d 0 se) in
  get_pvalue rc rt nc nt = Val (p, verdict p)
  /\ (se <> 0 -> p = Fin (2 * NormalCDF.Phi (d / se))).
Proof.
  intros Hc Ht Vc Vt d scale_control scale_test se p. split.
  - apply get_pvalue_unfold; try assumption.
    pose proof (scale_of_nonneg Vc Hc). pose proof (scale_of_nonneg Vt Ht). lra.
  - intros Hse. unfold p, norm_cdf.
    assert (Hpos : 0 < se).
    { pose proof (sqrt_pos (scale_control + scale_test)). fold se in H. lra. }
    destruct (Rlt_dec 0 se) as [_|N]; [|contradiction].
    cbn [py_mul]. do 2 apply f_equal. apply f_equal. field. lra.
Qed.

Lemma get_pvalue_two_tailed_formula_witness :
  exists p, get_pvalue (1 / 10) (13 / 100) 1000 1000 = Val (p, verdict p).
Proof.
  eexists.
  apply (get_pvalue_two_tailed_formula (1 / 10) (13 / 100) 1000 1000);
    unfold valid_rate; (lia || lra).
Defined.

(** C2 as the code has it: when a size is the integer 0, [1 / size]
    raises [ZeroDivisionError] and [get_pvalue] ends with that
    exception. *)
Theorem get_pvalue_zero_size (rc rt : R) (nc nt : Z) :
  nc = 0%Z \/ nt = 0%Z ->
  get_pvalue rc rt nc nt = Exn "ZeroDivisionError"%string.
Proof.
  intros H. unfold get_pvalue, py_div.
  destruct (Z.eqb_spec nc 0) as [_|Hc]; [reflexivity|].
  destruct (Z.eqb_spec nt 0) as [_|Ht]; [reflexivity|].
  destruct H; contradiction.
Qed.

Lemma get_pvalue_zero_size_witness :
  get_pvalue (1 / 10) (2 / 10) 0 10 = Exn "ZeroDivisionError"%string.
Proof. apply (get_pvalue_zero_size (1 / 10) (2 / 10) 0 10). left. reflexivity. Defined.

(** C2 fails as stated: with a control group of size 0 the exception is
    [ZeroDivisionError], not [InvalidInput]. *)
Lemma get_pvalue_zero_size_not_InvalidInput :
  get_pvalue (1 / 10) (2 / 10) 0 10 <> Exn "InvalidInput"%string.
Proof.
  unfold get_pvalue, py_div. cbn [Z.eqb bind]. discriminate.
Qed.

(** C3 as the code has it: for positive sizes and rates in [0,1] with a
    pooled standard error of 0, nothing is raised; [norm.cdf] is called
    with scale 0 and the p-value returned is NaN. *)
Theorem get_pvalue_zero_standard_error (rc rt : R) (nc nt : Z) :
  (0 < nc)%Z -> (0 < nt)%Z -> valid_rate rc -> valid_rate rt ->
  standard_error rc rt nc nt = 0 ->
  exists msg, get_pvalue rc rt nc nt = Val (NaN, msg).
Proof.
  intros Hc Ht Vc Vt Hse.
  pose proof (scale_of_nonneg Vc Hc). pose proof (scale_of_nonneg Vt Ht).
  eexists. apply get_pvalue_degenerate; try assumption.
  unfold standard_error in Hse. apply sqrt_eq_0 in Hse; lra.
Qed.

Lemma get_pvalue_zero_standard_error_witness :
  exists msg, get_pvalue 0 1 10 20 = Val (NaN, msg).
Proof.
  apply (get_pvalue_zero_standard_error 0 1 10 20);
    try lia; try (unfold valid_rate; lra).
  unfold standard_error, scale_of.
  replace (0 * (1 - 0) / 10 + 1 * (1 - 1) / 20) with 0 by field.
  apply sqrt_0.
Defined.

(** C3 fails as stated: with both rates 0 and sizes 10 the call returns
    the pair (NaN, "Significant Result") and raises no
    [DegenerateDistribution]. *)
Lemma get_pvalue_degenerate_returns_nan :
  get_pvalue 0 0 10 10 = Val (NaN, "Significant Result"%string)
  /\ get_pvalue 0 0 10 10 <> Exn "DegenerateDistribution"%string.
Proof.
  assert (E : get_pvalue 0 0 10 10 = Val (NaN, "Significant Result"%string)).
  { apply get_pvalue_degenerate; try lia. unfold scale_of. field. }
  split; [exact E|]. rewrite E. discriminate.
Qed.

(** C4: for valid inputs (positive sizes, rates in [0,1], non-zero pooled
    standard error) the p-value returned lies in [0, 2], the message is
    "Significant Result" exactly when [p_value < 0.05], and a p-value of
    exactly 0.05 is reported as "Not Significant". *)
Theorem get_pvalue_range_and_verdict (rc rt : R) (nc nt : Z) :
  (0 < nc)%Z -> (0 < nt)%Z -> valid_rate rc -> valid_rate rt ->
  standard_error rc rt nc nt <> 0 ->
  exists p msg,
    get_pvalue rc rt nc nt = Val (Fin p, msg)
    /\ 0 <= p <= 2
    /\ (msg = "Significant Result"%string <-> p < 5 / 100)
    /\ (msg = "Not Significant"%string <-> 5 / 100 <= p)
    /\ verdict (Fin (5 / 100)) = "Not Significant"%string.
Proof.
  intros Hc Ht Vc Vt Hse. apply standard_error_pos in Hse.
  exists (two_tailed rc rt nc nt), (verdict (Fin (two_tailed rc rt nc nt))).
  split; [now apply get_pvalue_regular|].
  pose proof (two_tailed_bounds Hse).
  split; [lra|]. split; [apply verdict_significant_iff|].
  split; [apply verdict_not_significant_iff|].
  apply verdict_not_significant_iff. lra.
Qed.

Lemma get_pvalue_range_and_verdict_witness :
  exists p msg,
    get_pvalue (1 / 10) (13 / 100) 1000 1000 = Val (Fin p, msg) /\ 0 <= p <= 2.
Proof.
  destruct (get_pvalue_range_and_verdict (1 / 10) (13 / 100) 1000 1000)
    as [p [msg [E [B _]]]];
    try lia; try (unfold valid_rate; lra).
  - unfold standard_error, scale_of. apply Rgt_not_eq, sqrt_lt_R0. lra.
  - exists p, msg. split; assumption.
Defined.

(** C5: for positive sizes and a common rate [r] strictly between 0 and
    1, the lift is 0, the p-value is exactly 1 and the message is
    "Not Significant". *)
Theorem get_pvalue_equal_rates (r : R) (nc nt : Z) :
  (0 < nc)%Z -> (0 < nt)%Z -> 0 < r < 1 ->
  lift r r = 0
  /\ get_pvalue r r nc nt = Val (Fin 1, "Not Significant"%string).
Proof.
  intros Hc Ht Hr.
  assert (Hl : lift r r = 0).
  { unfold lift. replace (r - r) with 0 by ring. rewrite Rabs_R0. ring. }
  split; [exact Hl|].
  assert (Hrad : 0 < scale_of r nc + scale_of r nt).
  { pose proof (IZR_lt _ _ Hc) as Hc'. pose proof (IZR_lt _ _ Ht) as Ht'.
    unfold scale_of.
    assert (0 < r * (1 - r)) by nra.
    pose proof (Rdiv_lt_0_compat _ _ H Hc').
    pose proof (Rdiv_lt_0_compat _ _ H Ht'). lra. }
  rewrite (get_pvalue_regular Hc Ht Hrad).
  assert (Hp : two_tailed r r nc nt = 1).
  { unfold two_tailed. rewrite Hl. unfold Rdiv. rewrite Rmult_0_l.
    rewrite NormalCDF.Phi_0. field. }
  rewrite Hp. do 2 apply f_equal.
  apply verdict_not_significant_iff. lra.
Qed.

Lemma get_pvalue_equal_rates_witness :
  get_pvalue (2 / 10) (2 / 10) 500 700 = Val (Fin 1, "Not Significant"%string).
Proof.
  apply (get_pvalue_equal_rates (2 / 10) 500 700); (lia || lra).
Defined.

(** C6: exchanging the control pair (rate, size) with the test pair does
    not change what [get_pvalue] returns, in particular not the
    p-value. *)
Theorem get_pvalue_symmetric (rc rt : R) (nc nt : Z) :
  get_pvalue rt rc nt nc = get_pvalue rc rt nc nt.
Proof.
  unfold get_pvalue, py_div.
  destruct (Z.eqb_spec nc 0) as [_|Hc], (Z.eqb_spec nt 0) as [_|Ht];
    try reflexivity.
  cbn [bind]. rewrite (Rabs_minus_sym rc rt).
  rewrite (Rplus_comm (rt * (1 - rt) * (1 / IZR nt))). reflexivity.
Qed.

(** C10: for positive sizes and a non-zero pooled standard error the
    p-value returned lies in [0, 1]: the lift is never positive, so
    [2 * Φ(lift / standard_error)] never exceeds [2 * Φ(0) = 1]. *)
Theorem get_pvalue_at_most_one (rc rt : R) (nc nt : Z) :
  (0 < nc)%Z -> (0 < nt)%Z -> standard_error rc rt nc nt <> 0 ->
  exists p msg, get_pvalue rc rt nc nt = Val (Fin p, msg) /\ 0 <= p <= 1.
Proof.
  intros Hc Ht Hse. apply standard_error_pos in Hse.
  exists (two_tailed rc rt nc nt), (verdict (Fin (two_tailed rc rt nc nt))).
  split; [now apply get_pvalue_regular|now apply two_tailed_bounds].
Qed.

Lemma get_pvalue_at_most_one_witness :
  exists p msg,
    get_pvalue (1 / 10) (104 / 1000) 500 500 = Val (Fin p, msg) /\ 0 <= p <= 1.
Proof.
  apply (get_pvalue_at_most_one (1 / 10) (104 / 1000) 500 500); try lia.
  unfold standard_error, scale_of. apply Rgt_not_eq, sqrt_lt_R0. lra.
Defined.

(** *** Monotonicity in the difference of the rates *)

(** C7 as the code has it: for two valid inputs with the same positive
    sizes, if the second has a strictly larger [|rate_test - rate_control|]
    and a pooled standard error that is not larger than the first's, then
    its p-value is not larger than the first's. *)
Theorem get_pvalue_monotone_in_difference
        (rc1 rt1 rc2 rt2 : R) (nc nt : Z) :
  (0 < nc)%Z -> (0 < nt)%Z ->
  valid_rate rc1 -> valid_rate rt1 -> valid_rate rc2 -> valid_rate rt2 ->
  standard_error rc1 rt1 nc nt <> 0 ->
  standard_error rc2 rt2 nc nt <> 0 ->
  Rabs (rt1 - rc1) < Rabs (rt2 - rc2) ->
  standard_error rc2 rt2 nc nt <= standard_error rc1 rt1 nc nt ->
  exists p1 p2 m1 m2,
    get_pvalue rc1 rt1 nc nt = Val (Fin p1, m1)
    /\ get_pvalue rc2 rt2 nc nt = Val (Fin p2, m2)
    /\ p2 <= p1.
Proof.
  intros Hc Ht _ _ _ _ Hse1 Hse2 Hd Hse.
  pose proof (standard_error_pos Hse1) as R1.
  pose proof (standard_error_pos Hse2) as R2.
  exists (two_tailed rc1 rt1 nc nt), (two_tailed rc2 rt2 nc nt).
  do 2 eexists.
  split; [now apply get_pvalue_regular|].
  split; [now apply get_pvalue_regular|].
  unfold two_tailed. apply Rmult_le_compat_l; [lra|].
  apply NormalCDF.Phi_monotone.
  set (s1 := standard_error rc1 rt1 nc nt) in *.
  set (s2 := standard_error rc2 rt2 nc nt) in *.
  assert (P1 : 0 < s1) by (unfold s1, standard_error; now apply sqrt_lt_R0).
  assert (P2 : 0 < s2) by (unfold s2, standard_error; now apply sqrt_lt_R0).
  unfold lift. pose proof (Rabs_pos (rt1 - rc1)) as A1.
  set (d1 := Rabs (rt1 - rc1)) in *. set (d2 := Rabs (rt2 - rc2)) in *.
  apply Rmult_le_reg_r with (s1 * s2); [nra|].
  replace (- d2 / s2 * (s1 * s2)) with (- d2 * s1) by (field; lra).
  replace (- d1 / s1 * (s1 * s2)) with (- d1 * s2) by (field; lra).
  nra.
Qed.

Lemma get_pvalue_monotone_in_difference_witness :
  exists p1 p2 m1 m2,
    get_pvalue (1 / 2) (6 / 10) 100 100 = Val (Fin p1, m1)
    /\ get_pvalue (1 / 2) (7 / 10) 100 100 = Val (Fin p2, m2)
    /\ p2 <= p1.
Proof.
  apply (get_pvalue_monotone_in_difference
           (1 / 2) (6 / 10) (1 / 2) (7 / 10) 100 100);
    try lia; try (unfold valid_rate; lra).
  - unfold standard_error, scale_of. apply Rgt_not_eq, sqrt_lt_R0. lra.
  - unfold standard_error, scale_of. apply Rgt_not_eq, sqrt_lt_R0. lra.
  - replace (6 / 10 - 1 / 2) with (1 / 10) by field.
    replace (7 / 10 - 1 / 2) with (2 / 10) by field.
    rewrite !Rabs_pos_eq; lra.
  - unfold standard_error, scale_of. apply sqrt_le_1_alt. lra.
Defined.

(** C7 fails as stated: with sizes 100 and 100, the rates (0, 0.1) differ
    by 0.1 and the rates (0.5, 0.7) differ by 0.2, yet the second p-value
    is strictly larger than the first: the standard error grows from 0.03
    to more than 0.06. *)
Lemma get_pvalue_larger_difference_larger_pvalue :
  exists p1 p2 m1 m2,
    get_pvalue 0 (1 / 10) 100 100 = Val (Fin p1, m1)
    /\ get_pvalue (1 / 2) (7 / 10) 100 100 = Val (Fin p2, m2)
    /\ Rabs (1 / 10 - 0) < Rabs (7 / 10 - 1 / 2)
    /\ p1 < p2.
Proof.
  assert (R1 : 0 < scale_of 0 100 + scale_of (1 / 10) 100)
    by (unfold scale_of; lra).
  assert (R2 : 0 < scale_of (1 / 2) 100 + scale_of (7 / 10) 100)
    by (unfold scale_of; lra).
  exists (two_tailed 0 (1 / 10) 100 100), (two_tailed (1 / 2) (7 / 10) 100 100).
  do 2 eexists.
  split; [apply get_pvalue_regular; (lia || exact R1)|].
  split; [apply get_pvalue_regular; (lia || exact R2)|].
  assert (A1 : Rabs (1 / 10 - 0) = 1 / 10) by (rewrite Rabs_pos_eq; lra).
  assert (A2 : Rabs (7 / 10 - 1 / 2) = 2 / 10).
  { replace (7 / 10 - 1 / 2) with (2 / 10) by field. rewrite Rabs_pos_eq; lra. }
  split; [lra|].
  unfold two_tailed. apply Rmult_lt_compat_l; [lra|].
  apply NormalCDF.Phi_increasing. unfold lift. rewrite A1, A2.
  assert (S1 : standard_error 0 (1 / 10) 100 100 = 3 / 100).
  { unfold standard_error, scale_of.
    replace (0 * (1 - 0) / 100 + 1 / 10 * (1 - 1 / 10) / 100)
      with ((3 / 100) * (3 / 100)) by field.
    apply sqrt_square. lra. }
  assert (S2 : 6 / 100 < standard_error (1 / 2) (7 / 10) 100 100).
  { unfold standard_error, scale_of.
    rewrite <- (sqrt_square (6 / 100)) at 1 by lra.
    apply sqrt_lt_1_alt. lra. }
  rewrite S1. set (s2 := standard_error (1 / 2) (7 / 10) 100 100) in *.
  apply Rmult_lt_reg_r with s2; [lra|].
  replace (- (2 / 10) / s2 * s2) with (- (2 / 10)) by (field; lra).
  lra.
Qed.

(** ** The validation cell *)

Local Open Scope string_scope.

(** Two users, the first converted and the second not. *)
Definition rows_converted_first : dataframe :=
  [mkRow "u1" "2021-01-01" "A" 1; mkRow "u2" "2021-01-01" "B" 0].

(** The same two users in the other order. *)
Definition rows_converted_last : dataframe :=
  [mkRow "u2" "2021-01-01" "B" 0; mkRow "u1" "2021-01-01" "A" 1].

Lemma check_converted_true_iff (df : dataframe) :
  check_converted df = Some true
  <-> unique Z.eqb (map converted df) = [0; 1]%Z.
Proof.
  unfold check_converted, eq_01_all.
  destruct (unique Z.eqb (map converted df)) as [|x [|y [|z l]]];
    split; intros H; try discriminate.
  - injection H as H. apply andb_prop in H as [H0 H1].
    apply Z.eqb_eq in H0, H1. lia.
  - injection H as H. apply andb_prop in H as [H0 H1].
    apply Z.eqb_eq in H0, H1. now subst.
  - injection H as -> ->. reflexivity.
Qed.

(** C8, the code at a failing input: a column whose first value is 1 and
    second value is 0 holds only the codes 0 and 1, yet the check prints
    [False]; the same rows in the other order print [True]. *)
Theorem check_converted_depends_on_order :
  only_0_and_1 (map converted rows_converted_first) = true
  /\ check_converted rows_converted_first = Some false
  /\ check_converted rows_converted_last = Some true.
Proof. repeat split. Qed.

(** ** The group extraction cell *)

(** Group "A" appears first and has one user, group "B" has two. *)
Definition rows_small_group_first : dataframe :=
  [mkRow "u1" "2021-01-01" "A" 1;
   mkRow "u2" "2021-01-01" "B" 0;
   mkRow "u3" "2021-01-02" "B" 1].

(** Group "B" appears first, group "A" second. *)
Definition rows_later_label_first : dataframe :=
  [mkRow "u1" "2021-01-01" "B" 1; mkRow "u2" "2021-01-01" "A" 0].

Lemma count_occ_b_group (l : string) (df : dataframe) :
  count_occ_b String.eqb l (map group df) = group_size l df.
Proof.
  unfold count_occ_b, group_size, rows_of. f_equal.
  induction df as [|r df IH]; [reflexivity|].
  simpl. destruct (String.eqb l (group r)); simpl; now rewrite IH.
Qed.

Lemma unique_from_not_seen {A : Type} (eqb : A -> A -> bool) (l : list A) :
  forall seen y, In y (unique_from eqb seen l) -> existsb (eqb y) seen = false.
Proof.
  induction l as [|x t IH]; intros seen y Hy; [contradiction|].
  simpl in Hy. destruct (existsb (eqb x) seen) eqn:E.
  - now apply IH.
  - destruct Hy as [<-|Hy]; [exact E|].
    apply IH in Hy. simpl in Hy. now apply orb_false_elim in Hy.
Qed.

Lemma unique_two_distinct (col : list string) (a b : string) :
  unique String.eqb col = [a; b] -> String.eqb b a = false.
Proof.
  destruct col as [|x t]; [discriminate|].
  unfold unique. simpl. intros H. injection H as -> H.
  assert (Hb : In b (unique_from String.eqb [a] t)) by (rewrite H; now left).
  apply unique_from_not_seen in Hb. simpl in Hb.
  now apply orb_false_elim in Hb.
Qed.

(** What the cell computes on a dataset with exactly two labels, [a] the
    first to appear: a [KeyError] when [b] sorts before [a]; otherwise the
    rates are those of [a] and of [b], while [a_size] is the larger of the
    two group sizes and [b_size] the smaller. *)
Lemma extract_groups_two (df : dataframe) (a b : string) :
  unique String.eqb (map group df) = [a; b] ->
  extract_groups df =
  if String.ltb b a then Exn "KeyError"
  else Val (mkGroups a b
              (Z.max (group_size a df) (group_size b df))
              (Z.min (group_size a df) (group_size b df))
              (group_conv a df) (group_conv b df)).
Proof.
  intros H. pose proof (unique_two_distinct _ _ _ H) as Hba.
  assert (Hab : String.eqb a b = false) by (now rewrite String.eqb_sym).
  unfold extract_groups, value_counts, groupby_conv, sorted_labels.
  rewrite H. cbn [map fold_right insert_by_count insert_by_label snd].
  rewrite !count_occ_b_group.
  destruct (Z.ltb_spec (group_size a df) (group_size b df)) as [Hlt|Hge];
    cbn [at_position nth_error bind];
    destruct (String.ltb b a);
    cbn [number_rows Z.add Pos.add]; unfold conv_at;
    cbn [filter cr_group];
    rewrite ?String.eqb_refl, ?Hba, ?Hab;
    cbn [find cr_index cr_conv Z.eqb Pos.eqb bind];
    try reflexivity.
  - rewrite Z.max_r, Z.min_l by lia. reflexivity.
  - rewrite Z.max_l, Z.min_r by lia. reflexivity.
Qed.

(** The cell pairs each rate with the size of the same group when the
    first label to appear also sorts first and is not the smaller group. *)
Lemma extract_groups_consistent (df : dataframe) (a b : string) :
  unique String.eqb (map group df) = [a; b] ->
  String.ltb b a = false ->
  (group_size b df <= group_size a df)%Z ->
  extract_groups df =
  Val (mkGroups a b (group_size a df) (group_size b df)
                (group_conv a df) (group_conv b df)).
Proof.
  intros H Hlt Hsz. rewrite (extract_groups_two _ _ _ H), Hlt.
  rewrite Z.max_l, Z.min_r by lia. reflexivity.
Qed.

(** C9, the code at two failing inputs.  When the first label to appear
    is the smaller group, [a_size] is the size of the other group while
    [a_conv] is the rate of the first, and [get_pvalue] is called with the
    rate of "A" next to the size of "B"; when the first label to appear
    sorts after the second, the lookup [conv[0]] raises [KeyError]. *)
Theorem extract_groups_mixes_groups :
  extract_groups rows_small_group_first
  = Val (mkGroups "A" "B" 2 1 (1 # 1) (1 # 2))
  /\ group_size "A" rows_small_group_first = 1%Z
  /\ group_size "B" rows_small_group_first = 2%Z
  /\ group_conv "A" rows_small_group_first = (1 # 1)%Q
  /\ group_conv "B" rows_small_group_first = (1 # 2)%Q
  /\ run_test rows_small_group_first
     = get_pvalue (Q2R (1 # 1)) (Q2R (1 # 2)) 2 1
  /\ extract_groups rows_later_label_first = Exn "KeyError"
  /\ run_test rows_later_label_first = Exn "KeyError".
Proof. repeat split. Qed.

(** * Further properties of the notebook *)

From Stdlib Require Import Permutation Sorted.

(** ** More on the validation cell *)

(** Facts on [unique], for an equality test that decides equality. *)
Section UniqueFacts.
Context {A : Type} (eqb : A -> A -> bool).
Hypothesis eqb_eq : forall x y, eqb x y = true <-> x = y.

Lemma existsb_eqb_In (x : A) (seen : list A) :
  existsb (eqb x) seen = true <-> In x seen.
Proof.
  rewrite existsb_exists. split.
  - intros [y [Hy E]]. apply eqb_eq in E. now subst.
  - intros H. exists x. split; [exact H|now apply eqb_eq].
Qed.

Lemma existsb_eqb_not_In (x : A) (seen : list A) :
  existsb (eqb x) seen = false <-> ~ In x seen.
Proof.
  rewrite <- existsb_eqb_In. destruct (existsb (eqb x) seen); split;
    intros H; try discriminate; try reflexivity; now elim H.
Qed.

Lemma In_unique_from (l : list A) :
  forall seen y, In y (unique_from eqb seen l) <-> In y l /\ ~ In y seen.
Proof.
  induction l as [|x t IH]; intros seen y; simpl.
  - tauto.
  - destruct (existsb (eqb x) seen) eqn:E.
    + apply existsb_eqb_In in E. rewrite IH. split.
      * tauto.
      * intros [[<-|H] N]; [contradiction|tauto].
    + apply existsb_eqb_not_In in E. simpl. rewrite IH. simpl. split.
      * intros [<-|[H N]]; [tauto|]. split; [tauto|]. intros F. apply N. now right.
      * intros [[<-|H] N]; [now left|].
        destruct (eqb x y) eqn:Exy.
        -- apply eqb_eq in Exy. now left.
        -- right. split; [exact H|]. intros [F|F]; [|contradiction].
           apply eqb_eq in F. congruence.
Qed.

Lemma In_unique (l : list A) (y : A) : In y (unique eqb l) <-> In y l.
Proof. unfold unique. rewrite In_unique_from. simpl. tauto. Qed.

Lemma NoDup_unique_from (l : list A) :
  forall seen, NoDup (unique_from eqb seen l).
Proof.
  induction l as [|x t IH]; intros seen; simpl; [constructor|].
  destruct (existsb (eqb x) seen); [apply IH|].
  constructor; [|apply IH].
  rewrite In_unique_from. simpl. tauto.
Qed.

Lemma unique_from_length_le (l : list A) :
  forall seen, (List.length (unique_from eqb seen l) <= List.length l)%nat.
Proof.
  induction l as [|x t IH]; intros seen; simpl; [lia|].
  destruct (existsb (eqb x) seen); simpl.
  - specialize (IH seen). lia.
  - specialize (IH (x :: seen)). lia.
Qed.

Lemma unique_from_keeps_all (l : list A) :
  forall seen,
    List.length (unique_from eqb seen l) = List.length l
    <-> NoDup l /\ forall x, In x l -> ~ In x seen.
Proof.
  induction l as [|x t IH]; intros seen; simpl.
  - split; [intros _; split; [constructor|tauto]|reflexivity].
  - destruct (existsb (eqb x) seen) eqn:E.
    + apply existsb_eqb_In in E. split.
      * intros H. pose proof (unique_from_length_le t seen). lia.
      * intros [_ H]. exfalso. apply (H x); [now left|exact E].
    + apply existsb_eqb_not_In in E. simpl. split.
      * intros H. injection H as H. apply IH in H as [ND H].
        split.
        -- constructor; [|exact ND]. intros F. apply (H x F). now left.
        -- intros y [<-|Hy]; [exact E|]. intros F. apply (H y Hy). now right.
      * intros [ND H]. f_equal. apply IH. inversion ND as [|? ? Hx ND']; subst.
        split; [exact ND'|]. intros y Hy [F|F].
        -- subst. contradiction.
        -- apply (H y); [now right|exact F].
Qed.

Lemma is_unique_NoDup (l : list A) : is_unique eqb l = true <-> NoDup l.
Proof.
  unfold is_unique, unique. rewrite Nat.eqb_eq, unique_from_keeps_all.
  simpl. tauto.
Qed.

(** The first value of a column is the first value of [unique]. *)
Lemma unique_head (x : A) (t : list A) :
  unique eqb (x :: t) = x :: unique_from eqb [x] t.
Proof. reflexivity. Qed.

End UniqueFacts.

(** X1: the first check prints [True] exactly when no uid occurs twice. *)
Theorem check_uid_iff_no_duplicate (df : dataframe) :
  check_uid df = true <-> NoDup (map uid df).
Proof. unfold check_uid. apply is_unique_NoDup, String.eqb_eq. Qed.

Lemma unique_from_all_seen {A : Type} (eqb : A -> A -> bool) (l : list A) :
  forall seen,
    (forall x, In x l -> existsb (eqb x) seen = true) ->
    unique_from eqb seen l = [].
Proof.
  induction l as [|x t IH]; intros seen H; [reflexivity|].
  simpl. rewrite (H x (or_introl eq_refl)). apply IH.
  intros y Hy. apply H. now right.
Qed.

Lemma NoDup_all_equal {A : Type} (v : A) (l : list A) :
  NoDup l -> In v l -> (forall y, In y l -> y = v) -> l = [v].
Proof.
  intros ND Hin Hall. destruct l as [|x [|y t]].
  - contradiction.
  - f_equal. apply Hall. now left.
  - exfalso. inversion ND as [|? ? Hx _]; subst. apply Hx.
    rewrite (Hall x), <- (Hall y); [now left|right; now left|now left].
Qed.

(** X2: the third check prints [True] exactly when the first row has
    [converted = 0], a later row has [converted = 1] and every row has one
    of these two values. *)
Theorem check_converted_true_iff_zero_first (df : dataframe) :
  check_converted df = Some true
  <-> exists rest,
        map converted df = 0%Z :: rest
        /\ In 1%Z rest
        /\ forall v, In v rest -> v = 0%Z \/ v = 1%Z.
Proof.
  rewrite check_converted_true_iff.
  destruct (map converted df) as [|x t].
  - split; [discriminate|]. intros [rest [E _]]. discriminate.
  - rewrite unique_head. split.
    + intros H. injection H as -> H. exists t. split; [reflexivity|].
      split.
      * assert (In 1%Z (unique_from Z.eqb [0%Z] t)) by (rewrite H; now left).
        apply (In_unique_from Z.eqb Z.eqb_eq) in H0. tauto.
      * intros v Hv. destruct (Z.eq_dec v 0) as [E|N]; [now left|right].
        assert (In v (unique_from Z.eqb [0%Z] t)).
        { apply (In_unique_from Z.eqb Z.eqb_eq). split; [exact Hv|].
          simpl. intros [F|F]; [congruence|contradiction]. }
        rewrite H in H0. destruct H0 as [<-|[]]. reflexivity.
    + intros [rest [E [H1 Hall]]]. injection E as -> ->. f_equal.
      apply NoDup_all_equal.
      * apply NoDup_unique_from, Z.eqb_eq.
      * apply (In_unique_from Z.eqb Z.eqb_eq). split; [exact H1|].
        simpl. intros [F|F]; [discriminate|contradiction].
      * intros y Hy. apply (In_unique_from Z.eqb Z.eqb_eq) in Hy as [Hy N].
        destruct (Hall y Hy) as [->| ->]; [|reflexivity].
        elim N. now left.
Qed.

(** X3: on a non-empty column that holds one value only, say when no user
    converted, the third check prints [False]. *)
Theorem check_converted_single_value (df : dataframe) (v : Z) :
  df <> [] -> (forall r, In r df -> converted r = v) ->
  check_converted df = Some false.
Proof.
  intros Hne Hall. unfold check_converted.
  destruct df as [|r t]; [contradiction|]. cbn [map]. rewrite unique_head.
  rewrite unique_from_all_seen.
  - cbn [eq_01_all]. f_equal.
    destruct (Z.eqb_spec (converted r) 0) as [E|N]; [|reflexivity].
    rewrite E. reflexivity.
  - intros x Hx. apply in_map_iff in Hx as [r' [<- Hr']].
    rewrite (Hall r'), (Hall r); [|now left|now right].
    simpl. now rewrite Z.eqb_refl.
Qed.

Lemma check_converted_single_value_witness :
  check_converted
    [mkRow "u1" "2021-01-01" "A" 0; mkRow "u2" "2021-01-01" "B" 0]
  = Some false.
Proof.
  apply (check_converted_single_value
           [mkRow "u1" "2021-01-01" "A" 0; mkRow "u2" "2021-01-01" "B" 0]
           0%Z).
  - discriminate.
  - intros r [<-|[<-|[]]]; reflexivity.
Defined.

(** X4: the extraction cell stops with [ValueError], at the unpacking
    [a, b = df.group.unique()], exactly when the second check prints
    [False]. *)
Theorem extract_groups_ValueError_iff (df : dataframe) :
  extract_groups df = Exn "ValueError" <-> check_group df = false.
Proof.
  unfold check_group, nunique.
  destruct (unique String.eqb (map group df)) as [|a [|b [|c l]]] eqn:E;
    try (unfold extract_groups; rewrite E; split; reflexivity).
  rewrite (extract_groups_two _ _ _ E). simpl.
  destruct (String.ltb b a); split; discriminate.
Qed.

(** ** More on the group extraction cell *)

Lemma group_size_pos (l : string) (df : dataframe) :
  In l (map group df) -> (1 <= group_size l df)%Z.
Proof.
  intros H. apply in_map_iff in H as [r [E Hr]].
  unfold group_size, rows_of.
  assert (Hin : In r (filter (fun r => String.eqb l (group r)) df)).
  { apply filter_In. split; [exact Hr|]. rewrite E. apply String.eqb_refl. }
  destruct (filter (fun r => String.eqb l (group r)) df); [contradiction|].
  simpl. lia.
Qed.

Lemma group_size_two (a b : string) (df : dataframe) :
  a <> b -> (forall r, In r df -> group r = a \/ group r = b) ->
  (group_size a df + group_size b df)%Z = Z.of_nat (List.length df).
Proof.
  intros Hab. unfold group_size, rows_of.
  induction df as [|r df IH]; intros H; [reflexivity|].
  assert (IH' := IH (fun r' Hr' => H r' (or_intror Hr'))).
  cbn [filter List.length].
  destruct (H r (or_introl eq_refl)) as [E|E]; rewrite E.
  - rewrite String.eqb_refl. apply String.eqb_neq in Hab.
    rewrite String.eqb_sym, Hab. cbn [List.length]. lia.
  - rewrite String.eqb_refl. apply String.eqb_neq in Hab.
    rewrite Hab. cbn [List.length]. lia.
Qed.

Lemma two_labels_facts (df : dataframe) (a b : string) :
  unique String.eqb (map group df) = [a; b] ->
  a <> b
  /\ (1 <= group_size a df)%Z /\ (1 <= group_size b df)%Z
  /\ (group_size a df + group_size b df)%Z = Z.of_nat (List.length df).
Proof.
  intros H.
  assert (Hin : forall l, In l (map group df) <-> l = a \/ l = b).
  { intros l. rewrite <- (In_unique String.eqb String.eqb_eq), H. simpl.
    intuition congruence. }
  assert (Hab : a <> b).
  { apply unique_two_distinct in H. apply String.eqb_neq in H. congruence. }
  split; [exact Hab|].
  split; [apply group_size_pos, Hin; now left|].
  split; [apply group_size_pos, Hin; now right|].
  apply group_size_two; [exact Hab|].
  intros r Hr. apply Hin, in_map, Hr.
Qed.

(** What the cell returns, when it returns. *)
Lemma extract_groups_Val (df : dataframe) (g : groups) :
  extract_groups df = Val g ->
  unique String.eqb (map group df) = [a g; b g]
  /\ String.ltb (b g) (a g) = false
  /\ a_size g = Z.max (group_size (a g) df) (group_size (b g) df)
  /\ b_size g = Z.min (group_size (a g) df) (group_size (b g) df)
  /\ a_conv g = group_conv (a g) df
  /\ b_conv g = group_conv (b g) df.
Proof.
  intros H.
  destruct (unique String.eqb (map group df)) as [|x [|y [|z l]]] eqn:E;
    try (unfold extract_groups in H; rewrite E in H; discriminate).
  rewrite (extract_groups_two _ _ _ E) in H.
  destruct (String.ltb y x) eqn:L; [discriminate|].
  injection H as <-. cbn. repeat split; assumption || reflexivity.
Qed.

(** X5: the cell raises [KeyError] exactly when the data has two labels
    and the second to appear sorts before the first. *)
Theorem extract_groups_KeyError_iff (df : dataframe) :
  extract_groups df = Exn "KeyError"
  <-> exists a b,
        unique String.eqb (map group df) = [a; b] /\ String.ltb b a = true.
Proof.
  destruct (unique String.eqb (map group df)) as [|x [|y [|z l]]] eqn:E;
    try (unfold extract_groups; rewrite E; split;
         [discriminate|intros [a [b [F _]]]; discriminate]).
  rewrite (extract_groups_two _ _ _ E). split.
  - destruct (String.ltb y x) eqn:L; [|discriminate].
    intros _. now exists x, y.
  - intros [a [b [F L]]]. injection F as -> ->. now rewrite L.
Qed.

(** X6: whenever the cell returns, [b_size] is at least 1, [a_size] is
    at least [b_size], and the two sizes add up to the number of rows. *)
Theorem extract_groups_sizes (df : dataframe) (g : groups) :
  extract_groups df = Val g ->
  (1 <= b_size g <= a_size g)%Z
  /\ (a_size g + b_size g)%Z = Z.of_nat (List.length df).
Proof.
  intros H. apply extract_groups_Val in H as [U [_ [Ha [Hb _]]]].
  apply two_labels_facts in U as [_ [Pa [Pb S]]]. lia.
Qed.

Lemma extract_groups_sizes_witness :
  exists g,
    extract_groups rows_small_group_first = Val g
    /\ (1 <= b_size g <= a_size g)%Z
    /\ (a_size g + b_size g)%Z = 3%Z.
Proof.
  exists (mkGroups "A" "B" 2 1 (1 # 1) (1 # 2)).
  split; [reflexivity|].
  apply (extract_groups_sizes rows_small_group_first). reflexivity.
Defined.

(** X7: whenever the cell returns, [a] and [b] are the first and the
    second label to appear, [a_conv] and [b_conv] are the conversion rates
    of the groups [a] and [b], and the sizes belong to the same groups
    exactly when group [b] is not larger than group [a]. *)
Theorem extract_groups_pairing (df : dataframe) (g : groups) :
  extract_groups df = Val g ->
  unique String.eqb (map group df) = [a g; b g]
  /\ a_conv g = group_conv (a g) df
  /\ b_conv g = group_conv (b g) df
  /\ (a_size g = group_size (a g) df /\ b_size g = group_size (b g) df
      <-> (group_size (b g) df <= group_size (a g) df)%Z).
Proof.
  intros H. apply extract_groups_Val in H as [U [_ [Ha [Hb [Ca Cb]]]]].
  repeat split; try assumption; lia.
Qed.

Lemma extract_groups_pairing_witness :
  exists g,
    extract_groups rows_converted_first = Val g
    /\ a_conv g = group_conv (a g) rows_converted_first
    /\ b_conv g = group_conv (b g) rows_converted_first.
Proof.
  exists (mkGroups "A" "B" 1 1 (1 # 1) (0 # 1)).
  split; [reflexivity|].
  destruct (extract_groups_pairing rows_converted_first
              (mkGroups "A" "B" 1 1 (1 # 1) (0 # 1)) eq_refl)
    as [_ [Ha [Hb _]]].
  split; assumption.
Defined.

(** *** Rates of a 0/1 coded outcome *)

(** Every row carries one of the two codes. *)
Definition coded_01 (df : dataframe) : Prop :=
  forall r, In r df -> converted r = 0%Z \/ converted r = 1%Z.

Lemma group_sum_bounds (l : string) (df : dataframe) :
  coded_01 df -> (0 <= group_sum l df <= group_size l df)%Z.
Proof.
  unfold coded_01, group_sum, group_size, rows_of.
  induction df as [|r df IH]; intros H; [simpl; lia|].
  assert (IH' := IH (fun r' Hr' => H r' (or_intror Hr'))).
  cbn [filter]. destruct (String.eqb l (group r)); [|exact IH'].
  cbn [map fold_right List.length].
  destruct (H r (or_introl eq_refl)) as [E|E]; rewrite E; lia.
Qed.

Lemma Q2R_inject_Z (z : Z) : Q2R (inject_Z z) = IZR z.
Proof. unfold Q2R, inject_Z. simpl. field. Qed.

Lemma Q2R_group_conv (l : string) (df : dataframe) :
  (1 <= group_size l df)%Z ->
  Q2R (group_conv l df) = IZR (group_sum l df) / IZR (group_size l df).
Proof.
  intros H. unfold group_conv. rewrite Q2R_div.
  - now rewrite !Q2R_inject_Z.
  - intros F. apply Qeq_eqR in F. rewrite Q2R_inject_Z in F.
    replace (Q2R 0) with 0 in F by (unfold Q2R; simpl; field).
    apply eq_IZR in F. lia.
Qed.

Lemma group_conv_valid (l : string) (df : dataframe) :
  coded_01 df -> (1 <= group_size l df)%Z ->
  valid_rate (Q2R (group_conv l df)).
Proof.
  intros Hc Hs. rewrite Q2R_group_conv by exact Hs.
  destruct (group_sum_bounds l df Hc) as [H0 H1].
  apply IZR_le in H0, H1. assert (Hp : 1 <= IZR (group_size l df)) by now apply IZR_le.
  unfold valid_rate. split.
  - apply Rmult_le_pos; [exact H0|]. left. apply Rinv_0_lt_compat. lra.
  - apply Rmult_le_reg_r with (IZR (group_size l df)); [lra|].
    replace (IZR (group_sum l df) / IZR (group_size l df) * IZR (group_size l df))
      with (IZR (group_sum l df)) by (field; lra).
    lra.
Qed.

(** X8: on 0/1 coded data the two rates that the cell returns lie
    between 0 and 1. *)
Theorem extract_groups_rates_valid (df : dataframe) (g : groups) :
  coded_01 df -> extract_groups df = Val g ->
  valid_rate (Q2R (a_conv g)) /\ valid_rate (Q2R (b_conv g)).
Proof.
  intros Hc H. apply extract_groups_Val in H as [U [_ [_ [_ [-> ->]]]]].
  apply two_labels_facts in U as [_ [Pa [Pb _]]].
  split; now apply group_conv_valid.
Qed.

Lemma extract_groups_rates_valid_witness :
  valid_rate (Q2R (1 # 1)) /\ valid_rate (Q2R (1 # 2)).
Proof.
  apply (extract_groups_rates_valid rows_small_group_first
           (mkGroups "A" "B" 2 1 (1 # 1) (1 # 2))).
  - intros r [<-|[<-|[<-|[]]]]; simpl; tauto.
  - reflexivity.
Defined.

(** X9: on 0/1 coded data the test of the notebook never divides by zero
    and never takes the root of a negative number: it ends with
    [ValueError] (not two labels), with [KeyError] (second label sorts
    first), or returns a p-value with its message. *)
Theorem run_test_outcomes (df : dataframe) :
  coded_01 df ->
  run_test df = Exn "ValueError"
  \/ run_test df = Exn "KeyError"
  \/ exists p msg, run_test df = Val (p, msg).
Proof.
  intros Hc. unfold run_test.
  destruct (extract_groups df) as [g|e|] eqn:E.
  - right. right. cbn [bind].
    destruct (extract_groups_Val df g E) as [U [_ [Sa [Sb [Ca Cb]]]]].
    apply two_labels_facts in U as [_ [Pa [Pb _]]].
    assert (Va : valid_rate (Q2R (a_conv g)))
      by (rewrite Ca; now apply group_conv_valid).
    assert (Vb : valid_rate (Q2R (b_conv g)))
      by (rewrite Cb; now apply group_conv_valid).
    do 2 eexists. apply get_pvalue_unfold; try lia.
    assert (0 <= scale_of (Q2R (a_conv g)) (a_size g))
      by (apply scale_of_nonneg; [exact Va|lia]).
    assert (0 <= scale_of (Q2R (b_conv g)) (b_size g))
      by (apply scale_of_nonneg; [exact Vb|lia]).
    lra.
  - cbn [bind].
    destruct (unique String.eqb (map group df)) as [|x [|y [|z l]]] eqn:U;
      try (unfold extract_groups in E; rewrite U in E;
           injection E as <-; now left).
    rewrite (extract_groups_two _ _ _ U) in E.
    destruct (String.ltb y x); [|discriminate].
    injection E as <-. right. now left.
  - exfalso.
    destruct (unique String.eqb (map group df)) as [|x [|y [|z l]]] eqn:U;
      try (unfold extract_groups in E; rewrite U in E; discriminate).
    rewrite (extract_groups_two _ _ _ U) in E.
    destruct (String.ltb y x); discriminate.
Qed.

Lemma run_test_outcomes_witness :
  run_test rows_small_group_first = Exn "ValueError"
  \/ run_test rows_small_group_first = Exn "KeyError"
  \/ exists p msg, run_test rows_small_group_first = Val (p, msg).
Proof.
  apply (run_test_outcomes rows_small_group_first).
  intros r [<-|[<-|[<-|[]]]]; simpl; tauto.
Defined.

(** ** More on the significance test *)

Local Open Scope R_scope.

(** X10: counting the users who did not convert instead of those who did
    changes nothing: with both rates replaced by their complements
    [get_pvalue] gives the same result. *)
Theorem get_pvalue_complement (rc rt : R) (nc nt : Z) :
  get_pvalue (1 - rc) (1 - rt) nc nt = get_pvalue rc rt nc nt.
Proof.
  unfold get_pvalue, py_div.
  destruct (Z.eqb nc 0); [reflexivity|].
  destruct (Z.eqb nt 0); [reflexivity|].
  cbn [bind].
  replace (1 - rt - (1 - rc)) with (- (rt - rc)) by ring.
  rewrite Rabs_Ropp.
  replace ((1 - rc) * (1 - (1 - rc))) with (rc * (1 - rc)) by ring.
  replace ((1 - rt) * (1 - (1 - rt))) with (rt * (1 - rt)) by ring.
  reflexivity.
Qed.

(** X11: for positive sizes, if each rate is 0 or 1 the call returns NaN
    with the message "Significant Result", whether the two rates are
    equal or as far apart as they can be. *)
Theorem get_pvalue_extreme_rates (rc rt : R) (nc nt : Z) :
  (0 < nc)%Z -> (0 < nt)%Z ->
  rc = 0 \/ rc = 1 -> rt = 0 \/ rt = 1 ->
  get_pvalue rc rt nc nt = Val (NaN, "Significant Result"%string).
Proof.
  intros Hc Ht Ec Et. apply get_pvalue_degenerate; try assumption.
  pose proof (IZR_lt _ _ Hc). pose proof (IZR_lt _ _ Ht).
  unfold scale_of. destruct Ec as [-> | ->], Et as [-> | ->]; field; lra.
Qed.

Lemma get_pvalue_extreme_rates_witness :
  get_pvalue 0 1 40 60 = Val (NaN, "Significant Result"%string).
Proof.
  apply (get_pvalue_extreme_rates 0 1 40 60); try lia; [now left|now right].
Defined.

(** X12: for positive sizes and a non-zero standard error, the p-value
    returned is 1 exactly when the two rates are equal. *)
Theorem get_pvalue_one_iff_equal_rates (rc rt : R) (nc nt : Z) :
  (0 < nc)%Z -> (0 < nt)%Z -> standard_error rc rt nc nt <> 0 ->
  exists p msg,
    get_pvalue rc rt nc nt = Val (Fin p, msg) /\ (p = 1 <-> rc = rt).
Proof.
  intros Hc Ht Hse. pose proof (standard_error_pos Hse) as Hrad.
  exists (two_tailed rc rt nc nt), (verdict (Fin (two_tailed rc rt nc nt))).
  split; [now apply get_pvalue_regular|].
  assert (Hs : 0 < standard_error rc rt nc nt)
    by (unfold standard_error; now apply sqrt_lt_R0).
  unfold two_tailed. set (s := standard_error rc rt nc nt) in *.
  split.
  - intros Hp.
    destruct (Req_dec rc rt) as [E|N]; [exact E|exfalso].
    assert (Hl : lift rc rt < 0).
    { unfold lift. assert (0 < Rabs (rt - rc)) by (apply Rabs_pos_lt; lra). lra. }
    assert (Hz : lift rc rt / s < 0).
    { unfold Rdiv. pose proof (Rinv_0_lt_compat _ Hs). nra. }
    apply NormalCDF.Phi_increasing in Hz. rewrite NormalCDF.Phi_0 in Hz. lra.
  - intros <-. unfold lift. replace (rc - rc) with 0 by ring.
    rewrite Rabs_R0, Ropp_0. unfold Rdiv. rewrite Rmult_0_l, NormalCDF.Phi_0.
    field.
Qed.

Lemma get_pvalue_one_iff_equal_rates_witness :
  exists p msg,
    get_pvalue (1 / 10) (13 / 100) 1000 1000 = Val (Fin p, msg)
    /\ (p = 1 <-> 1 / 10 = 13 / 100).
Proof.
  apply (get_pvalue_one_iff_equal_rates (1 / 10) (13 / 100) 1000 1000);
    try lia.
  unfold standard_error, scale_of. apply Rgt_not_eq, sqrt_lt_R0. lra.
Defined.

Lemma scale_of_antitone (r : R) (n n' : Z) :
  valid_rate r -> (0 < n)%Z -> (n <= n')%Z -> scale_of r n' <= scale_of r n.
Proof.
  intros [H0 H1] Hn Hle. apply IZR_lt in Hn. apply IZR_le in Hle.
  unfold scale_of, Rdiv. apply Rmult_le_compat_l; [nra|].
  apply Rinv_le_contravar; lra.
Qed.

(** X13: with the rates held fixed, larger groups never give a larger
    p-value. *)
Theorem get_pvalue_more_users (rc rt : R) (nc nt nc' nt' : Z) :
  (0 < nc)%Z -> (0 < nt)%Z -> (nc <= nc')%Z -> (nt <= nt')%Z ->
  valid_rate rc -> valid_rate rt ->
  standard_error rc rt nc' nt' <> 0 ->
  exists p p' m m',
    get_pvalue rc rt nc nt = Val (Fin p, m)
    /\ get_pvalue rc rt nc' nt' = Val (Fin p', m')
    /\ p' <= p.
Proof.
  intros Hc Ht Lc Lt Vc Vt Hse'.
  pose proof (standard_error_pos Hse') as R'.
  pose proof (scale_of_antitone rc nc nc' Vc Hc Lc) as Ac.
  pose proof (scale_of_antitone rt nt nt' Vt Ht Lt) as At.
  assert (R0 : 0 < scale_of rc nc + scale_of rt nt) by lra.
  exists (two_tailed rc rt nc nt), (two_tailed rc rt nc' nt').
  do 2 eexists.
  split; [now apply get_pvalue_regular|].
  split; [apply get_pvalue_regular; (lia || exact R')|].
  unfold two_tailed. apply Rmult_le_compat_l; [lra|].
  apply NormalCDF.Phi_monotone.
  assert (S' : 0 < standard_error rc rt nc' nt')
    by (unfold standard_error; now apply sqrt_lt_R0).
  assert (SS : standard_error rc rt nc' nt' <= standard_error rc rt nc nt)
    by (unfold standard_error; apply sqrt_le_1_alt; lra).
  set (s := standard_error rc rt nc nt) in *.
  set (s' := standard_error rc rt nc' nt') in *.
  pose proof (lift_nonpos rc rt) as Hl.
  apply Rmult_le_reg_r with (s * s'); [nra|].
  replace (lift rc rt / s' * (s * s')) with (lift rc rt * s) by (field; lra).
  replace (lift rc rt / s * (s * s')) with (lift rc rt * s') by (field; lra).
  nra.
Qed.

Lemma get_pvalue_more_users_witness :
  exists p p' m m',
    get_pvalue (1 / 10) (13 / 100) 500 500 = Val (Fin p, m)
    /\ get_pvalue (1 / 10) (13 / 100) 1000 2000 = Val (Fin p', m')
    /\ p' <= p.
Proof.
  apply (get_pvalue_more_users (1 / 10) (13 / 100) 500 500 1000 2000);
    try lia; try (unfold valid_rate; lra).
  unfold standard_error, scale_of. apply Rgt_not_eq, sqrt_lt_R0. lra.
Defined.

(** ** The group balance cell (cell 3) *)

(** [df["group"].value_counts() / df["group"].count() * 100]: the share of
    each group among the rows, in percent, in the order of
    [value_counts]. *)
Definition group_percentages (df : dataframe) : list (string * Q) :=
  map (fun e => (fst e,
                 (inject_Z (snd e) / inject_Z (Z.of_nat (List.length df))
                  * 100)%Q))
      (value_counts (map group df)).

Definition Zsum (l : list Z) : Z := fold_right Z.add 0%Z l.

Definition Qsum (l : list Q) : Q := fold_right Qplus 0%Q l.

(** The heights of the bars are in non-increasing order. *)
Definition count_ge (x y : string * Z) : Prop := (snd y <= snd x)%Z.

Section CountFacts.
Context {A : Type} (eqb : A -> A -> bool).
Hypothesis eqb_eq : forall x y, eqb x y = true <-> x = y.

Definition fresh (seen : list A) (y : A) : bool :=
  negb (existsb (eqb y) seen).

Lemma eqb_sym_of_eq (x y : A) : eqb x y = eqb y x.
Proof.
  destruct (eqb x y) eqn:E, (eqb y x) eqn:F; try reflexivity.
  - apply eqb_eq in E. subst. rewrite (proj2 (eqb_eq y y) eq_refl) in F.
    discriminate.
  - apply eqb_eq in F. subst. rewrite (proj2 (eqb_eq x x) eq_refl) in E.
    discriminate.
Qed.

Lemma count_occ_b_cons (u x : A) (t : list A) :
  count_occ_b eqb u (x :: t)
  = ((if eqb u x then 1 else 0) + count_occ_b eqb u t)%Z.
Proof.
  unfold count_occ_b. cbn [filter]. destruct (eqb u x); cbn [List.length]; lia.
Qed.

Lemma count_fresh_split (x : A) (seen t : list A) :
  existsb (eqb x) seen = false ->
  Z.of_nat (List.length (filter (fresh seen) t))
  = (count_occ_b eqb x t
     + Z.of_nat (List.length (filter (fresh (x :: seen)) t)))%Z.
Proof.
  intros Hx. induction t as [|y t IH]; [reflexivity|].
  rewrite count_occ_b_cons. cbn [filter].
  assert (F : fresh (x :: seen) y = negb (eqb x y) && fresh seen y).
  { unfold fresh. cbn [existsb]. rewrite (eqb_sym_of_eq y x).
    now destruct (eqb x y), (existsb (eqb y) seen). }
  rewrite F. destruct (eqb x y) eqn:E.
  - apply eqb_eq in E. subst y.
    assert (Hf : fresh seen x = true) by (unfold fresh; now rewrite Hx).
    rewrite Hf. cbn [negb andb List.length]. lia.
  - cbn [negb andb]. destruct (fresh seen y); cbn [List.length]; lia.
Qed.

Lemma sum_counts_unique_from (l : list A) :
  forall seen,
    Zsum (map (fun u => count_occ_b eqb u l) (unique_from eqb seen l))
    = Z.of_nat (List.length (filter (fresh seen) l)).
Proof.
  induction l as [|x t IH]; intros seen; [reflexivity|].
  cbn [unique_from filter]. unfold fresh at 1.
  destruct (existsb (eqb x) seen) eqn:E; cbn [negb].
  - rewrite <- IH. f_equal. apply map_ext_in. intros u Hu.
    rewrite count_occ_b_cons.
    apply unique_from_not_seen in Hu.
    destruct (eqb u x) eqn:F; [|reflexivity].
    apply eqb_eq in F. subst. congruence.
  - cbn [map List.length]. unfold Zsum. cbn [fold_right]. fold (Zsum).
    rewrite count_occ_b_cons, (proj2 (eqb_eq x x) eq_refl).
    rewrite Nat2Z.inj_succ, (count_fresh_split x seen t E), <- (IH (x :: seen)).
    assert (Hm : map (fun u => count_occ_b eqb u (x :: t))
                     (unique_from eqb (x :: seen) t)
                 = map (fun u => count_occ_b eqb u t)
                       (unique_from eqb (x :: seen) t)).
    { apply map_ext_in. intros u Hu. rewrite count_occ_b_cons.
      apply unique_from_not_seen in Hu. cbn [existsb] in Hu.
      apply orb_false_elim in Hu as [Hu _]. now rewrite Hu. }
    rewrite Hm. unfold Zsum. lia.
Qed.

Lemma sum_counts_unique (l : list A) :
  Zsum (map (fun u => count_occ_b eqb u l) (unique eqb l))
  = Z.of_nat (List.length l).
Proof.
  unfold unique. rewrite sum_counts_unique_from. do 2 f_equal.
  induction l as [|x t IH]; [reflexivity|]. cbn. now rewrite IH.
Qed.

End CountFacts.

Lemma insert_by_count_perm (x : string * Z) (l : list (string * Z)) :
  Permutation (insert_by_count x l) (x :: l).
Proof.
  induction l as [|y t IH]; [reflexivity|]. cbn [insert_by_count].
  destruct (Z.ltb (snd x) (snd y)); [|reflexivity].
  rewrite IH. apply perm_swap.
Qed.

Lemma sort_by_count_perm (l : list (string * Z)) :
  Permutation (fold_right insert_by_count [] l) l.
Proof.
  induction l as [|x t IH]; [reflexivity|]. cbn [fold_right].
  rewrite insert_by_count_perm. now constructor.
Qed.

Lemma insert_by_count_sorted (x : string * Z) (l : list (string * Z)) :
  Sorted count_ge l -> Sorted count_ge (insert_by_count x l).
Proof.
  induction l as [|y t IH]; intros S; cbn [insert_by_count].
  - repeat constructor.
  - destruct (Z.ltb_spec (snd x) (snd y)) as [Hlt|Hge].
    + inversion S as [|? ? St Hd]; subst. constructor; [now apply IH|].
      destruct t as [|z t']; cbn [insert_by_count].
      * constructor. unfold count_ge. lia.
      * destruct (Z.ltb (snd x) (snd z)).
        -- constructor. inversion Hd; subst. assumption.
        -- constructor. unfold count_ge. lia.
    + constructor; [exact S|]. constructor. unfold count_ge. lia.
Qed.

Lemma value_counts_sorted (col : list string) :
  Sorted count_ge (value_counts col).
Proof.
  unfold value_counts.
  induction (map (fun l => (l, count_occ_b String.eqb l col))
                 (unique String.eqb col)) as [|x t IH]; cbn [fold_right].
  - constructor.
  - now apply insert_by_count_sorted.
Qed.

Lemma Zsum_perm (l l' : list Z) : Permutation l l' -> Zsum l = Zsum l'.
Proof.
  induction 1; cbn [Zsum fold_right] in *; try fold (Zsum l) in *;
    try fold (Zsum l') in *; lia.
Qed.

Lemma value_counts_total (col : list string) :
  Zsum (map snd (value_counts col)) = Z.of_nat (List.length col).
Proof.
  unfold value_counts.
  rewrite (Zsum_perm _ _ (Permutation_map snd (sort_by_count_perm _))).
  rewrite map_map. cbn [snd].
  apply (sum_counts_unique String.eqb String.eqb_eq).
Qed.

Lemma Qsum_percent (n : Z) (l : list (string * Z)) :
  (Qsum (map snd (map (fun e => (fst e,
                                 inject_Z (snd e) / inject_Z n * 100)) l))
   == inject_Z (Zsum (map snd l)) / inject_Z n * 100)%Q.
Proof.
  induction l as [|e t IH]; cbn [map Qsum Zsum fold_right snd].
  - unfold Qdiv. ring.
  - fold (Qsum (map snd (map (fun e => (fst e,
                  (inject_Z (snd e) / inject_Z n * 100)%Q)) t))).
    fold (Zsum (map snd t)). rewrite IH, inject_Z_plus. unfold Qdiv. ring.
Qed.

(** X14: on a dataset that has rows, the percentages printed for the
    groups add up to 100. *)
Theorem group_percentages_total (df : dataframe) :
  df <> [] -> (Qsum (map snd (group_percentages df)) == 100)%Q.
Proof.
  intros Hne. unfold group_percentages. rewrite Qsum_percent.
  rewrite value_counts_total, length_map.
  assert (Hn : ~ (inject_Z (Z.of_nat (List.length df)) == 0)%Q).
  { destruct df; [contradiction|]. unfold Qeq. simpl. lia. }
  field. exact Hn.
Qed.

Lemma group_percentages_total_witness :
  (Qsum (map snd (group_percentages rows_small_group_first)) == 100)%Q.
Proof.
  apply (group_percentages_total rows_small_group_first). discriminate.
Defined.

(** X15: the bar chart has one bar per label of the data, as high as the
    group is large, and the bars come in non-increasing height. *)
Theorem value_counts_bars (df : dataframe) :
  Sorted count_ge (value_counts (map group df))
  /\ NoDup (map fst (value_counts (map group df)))
  /\ forall l n,
       In (l, n) (value_counts (map group df))
       <-> In l (map group df) /\ n = group_size l df.
Proof.
  split; [apply value_counts_sorted|].
  pose proof (sort_by_count_perm
                (map (fun l => (l, count_occ_b String.eqb l (map group df)))
                     (unique String.eqb (map group df)))) as P.
  fold (value_counts (map group df)) in P.
  split.
  - apply (Permutation_NoDup (Permutation_sym (Permutation_map fst P))).
    rewrite map_map. cbn [fst]. rewrite map_id.
    apply NoDup_unique_from, String.eqb_eq.
  - intros l n. split.
    + intros H. apply (Permutation_in _ P) in H.
      apply in_map_iff in H as [l' [E Hl']]. injection E as -> <-.
      apply (proj1 (In_unique String.eqb String.eqb_eq _ _)) in Hl'.
      split; [exact Hl'|apply count_occ_b_group].
    + intros [Hl ->]. apply (Permutation_in _ (Permutation_sym P)).
      apply in_map_iff. exists l. rewrite count_occ_b_group.
      split; [reflexivity|].
      now apply (proj2 (In_unique String.eqb String.eqb_eq _ _)).
Qed.

(** ** The conversion rate over time (cell 4) *)

(** A group key of [groupby(by=["date", "group"])]. *)
Definition day_key : Type := (string * string)%type.

Definition key_of (r : row) : day_key := (date r, group r).

Definition key_eqb (k k' : day_key) : bool :=
  String.eqb (fst k) (fst k') && String.eqb (snd k) (snd k').

(** Keys are ordered by date, then by group. *)
Definition key_ltb (k k' : day_key) : bool :=
  String.ltb (fst k) (fst k')
  || (String.eqb (fst k) (fst k') && String.ltb (snd k) (snd k')).

Fixpoint insert_by_key (x : day_key) (l : list day_key) : list day_key :=
  match l with
  | [] => [x]
  | y :: t => if key_ltb y x then y :: insert_by_key x t else x :: y :: t
  end.

(** The distinct (date, group) pairs of the data in increasing order. *)
Definition sorted_keys (df : dataframe) : list day_key :=
  fold_right insert_by_key [] (unique key_eqb (map key_of df)).

Definition rows_at (k : day_key) (df : dataframe) : dataframe :=
  filter (fun r => key_eqb k (key_of r)) df.

(** A row of [cr_time]: the key, the aggregates [count] and [sum] of
    [converted], and [conversion_rate = sum / count * 100]. *)
Record cr_time_row : Type := mkCrTime {
  ct_date : string;
  ct_group : string;
  ct_count : Z;
  ct_sum : Z;
  ct_rate : Q
}.

Definition aggregate_at (df : dataframe) (k : day_key) : cr_time_row :=
  let count := Z.of_nat (List.length (rows_at k df)) in
  let sum := fold_right Z.add 0%Z (map converted (rows_at k df)) in
  mkCrTime (fst k) (snd k) count sum
           (inject_Z sum / inject_Z count * 100)%Q.

Definition cr_time (df : dataframe) : list cr_time_row :=
  map (aggregate_at df) (sorted_keys df).

Lemma key_eqb_eq (k k' : day_key) : key_eqb k k' = true <-> k = k'.
Proof.
  destruct k as [d g], k' as [d' g']. unfold key_eqb. cbn [fst snd].
  rewrite andb_true_iff, !String.eqb_eq. split.
  - intros [-> ->]. reflexivity.
  - intros E. injection E as -> ->. split; reflexivity.
Qed.

Lemma insert_by_key_perm (x : day_key) (l : list day_key) :
  Permutation (insert_by_key x l) (x :: l).
Proof.
  induction l as [|y t IH]; [reflexivity|]. cbn [insert_by_key].
  destruct (key_ltb y x); [|reflexivity].
  rewrite IH. apply perm_swap.
Qed.

Lemma sorted_keys_perm (df : dataframe) :
  Permutation (sorted_keys df) (unique key_eqb (map key_of df)).
Proof.
  unfold sorted_keys.
  induction (unique key_eqb (map key_of df)) as [|x t IH]; [reflexivity|].
  cbn [fold_right]. rewrite insert_by_key_perm. now constructor.
Qed.

Lemma In_sorted_keys (df : dataframe) (k : day_key) :
  In k (sorted_keys df) <-> exists r, In r df /\ key_of r = k.
Proof.
  split.
  - intros H. apply (Permutation_in _ (sorted_keys_perm df)) in H.
    apply (proj1 (In_unique key_eqb key_eqb_eq _ _)) in H.
    apply in_map_iff in H as [r [E Hr]]. now exists r.
  - intros [r [Hr E]].
    apply (Permutation_in _ (Permutation_sym (sorted_keys_perm df))).
    apply (proj2 (In_unique key_eqb key_eqb_eq _ _)).
    apply in_map_iff. now exists r.
Qed.

Lemma rows_at_count (k : day_key) (df : dataframe) :
  count_occ_b key_eqb k (map key_of df)
  = Z.of_nat (List.length (rows_at k df)).
Proof.
  unfold count_occ_b, rows_at. f_equal.
  induction df as [|r df IH]; [reflexivity|].
  cbn [map filter]. destruct (key_eqb k (key_of r)); cbn [List.length];
    now rewrite IH.
Qed.





(** X17: [cr_time] has exactly one row for each (date, group) pair that
    occurs in the data, and the counts of its rows add up to the number
    of rows of the data. *)
Theorem cr_time_partition (df : dataframe) :
  NoDup (map (fun c => (ct_date c, ct_group c)) (cr_time df))
  /\ (forall d g,
        In (d, g) (map (fun c => (ct_date c, ct_group c)) (cr_time df))
        <-> exists r, In r df /\ date r = d /\ group r = g)
  /\ Zsum (map ct_count (cr_time df)) = Z.of_nat (List.length df).
Proof.
  assert (K : map (fun c => (ct_date c, ct_group c)) (cr_time df)
              = sorted_keys df).
  { unfold cr_time. rewrite map_map. unfold aggregate_at.
    cbn [ct_date ct_group]. rewrite <- (map_id (sorted_keys df)) at 2.
    apply map_ext. now intros [d g]. }
  rewrite K. split; [|split].
  - apply (Permutation_NoDup (Permutation_sym (sorted_keys_perm df))).
    apply NoDup_unique_from, key_eqb_eq.
  - intros d g. rewrite In_sorted_keys. split.
    + intros [r [Hr E]]. exists r. unfold key_of in E.
      injection E as <- <-. tauto.
    + intros [r [Hr [<- <-]]]. now exists r.
  - unfold cr_time. rewrite map_map. unfold aggregate_at. cbn [ct_count].
    rewrite (Zsum_perm _ _ (Permutation_map _ (sorted_keys_perm df))).
    rewrite <- (length_map key_of df).
    rewrite <- (sum_counts_unique key_eqb key_eqb_eq (map key_of df)).
    f_equal. apply map_ext. intros k. symmetry. apply rows_at_count.
Qed.

(** ** The distribution plot (cell 7) *)

(** [x ** 0.5] on a NumPy float, which is what the extraction cell hands
    over: the square root, and NaN when [x] is negative. *)
Definition np_pow_half (x : R) : pyfloat :=
  if Rle_dec 0 x then Fin (sqrt x) else NaN.

Definition py_add (p q : pyfloat) : pyfloat :=
  match p, q with
  | Fin x, Fin y => Fin (x + y)
  | _, _ => NaN
  end.

Definition py_sub (p q : pyfloat) : pyfloat :=
  match p, q with
  | Fin x, Fin y => Fin (x - y)
  | _, _ => NaN
  end.

(** [np.linspace(start, stop, num)]: [num] evenly spaced points, computed
    as [i * step + start] with [step = (stop - start) / (num - 1)], the
    last one set to [stop]. *)
Definition linspace (start stop : pyfloat) (num : nat) : list pyfloat :=
  match num with
  | O => []
  | S O => [start]
  | S (S _ as div) =>
      let step := py_mul (/ INR div) (py_sub stop start) in
      (map (fun i => py_add (py_mul (INR i) step) start) (seq 0 div)
       ++ [stop])%list
  end.

(** [norm.pdf(x, loc, scale)]: the density of the normal law of mean
    [loc] and standard deviation [scale]; NaN when [x] or [scale] is NaN
    or [scale > 0] does not hold. *)
Definition norm_pdf (x : pyfloat) (loc : R) (scale : pyfloat) : pyfloat :=
  match x, scale with
  | Fin x, Fin s =>
      if Rlt_dec 0 s
      then Fin (NormalCDF.gauss ((x - loc) / s) / sqrt (2 * PI) / s)
      else NaN
  | _, _ => NaN
  end.

(** [a_var] and [a_sd] of a group.  The size is a count taken by the
    extraction cell, which is at least 1. *)
Definition variance_of (conv : R) (size : Z) : R :=
  (1 - conv) * conv / IZR size.

Definition sd_of (conv : R) (size : Z) : pyfloat :=
  np_pow_half (variance_of conv size).

(** The points of one curve: the abscissas [a_line] with the ordinates
    [norm.pdf(a_line, a_conv, a_sd)]. *)
Definition curve_of (conv : R) (size : Z) : list (pyfloat * pyfloat) :=
  let sd := sd_of conv size in
  let line := linspace (py_sub (Fin conv) (py_mul 3 sd))
                       (py_add (Fin conv) (py_mul 3 sd)) 100 in
  map (fun x => (x, norm_pdf x conv sd)) line.

(** The two curves that the cell draws. *)
Definition plot_distributions (df : dataframe)
  : comp (list (pyfloat * pyfloat) * list (pyfloat * pyfloat)) :=
  g <- extract_groups df ;;
  Val (curve_of (Q2R (a_conv g)) (a_size g),
       curve_of (Q2R (b_conv g)) (b_size g)).

Lemma variance_of_nonneg (conv : R) (size : Z) :
  valid_rate conv -> (1 <= size)%Z -> 0 <= variance_of conv size.
Proof.
  intros [H0 H1] Hs. apply IZR_le in Hs. unfold variance_of.
  apply Rmult_le_pos; [nra|]. left. apply Rinv_0_lt_compat. lra.
Qed.

Lemma sd_of_valid (conv : R) (size : Z) :
  valid_rate conv -> (1 <= size)%Z ->
  sd_of conv size = Fin (sqrt (variance_of conv size)).
Proof.
  intros V Hs. unfold sd_of, np_pow_half.
  destruct (Rle_dec 0 (variance_of conv size)) as [_|N]; [reflexivity|].
  elim N. now apply variance_of_nonneg.
Qed.

(** The abscissas of a curve with a finite standard deviation [s]. *)
Lemma linspace_fin (c s : R) :
  linspace (py_sub (Fin c) (py_mul 3 (Fin s)))
           (py_add (Fin c) (py_mul 3 (Fin s))) 100
  = map (fun i => Fin (c - 3 * s + INR i * (6 * s / 99))) (seq 0 100).
Proof.
  unfold linspace. cbn [py_sub py_add py_mul].
  assert (E99 : INR 99 = 99) by (rewrite INR_IZR_INZ; reflexivity).
  change (seq 0 100) with (seq 0 (S 99)). rewrite (seq_S 99 0), map_app.
  cbn [map Nat.add]. rewrite !E99. f_equal.
  - apply map_ext. intros i. f_equal. field.
  - do 2 f_equal. field.
Qed.

Lemma curve_of_valid (conv : R) (size : Z) :
  valid_rate conv -> (1 <= size)%Z ->
  let s := sqrt (variance_of conv size) in
  curve_of conv size
  = map (fun i =>
           let x := Fin (conv - 3 * s + INR i * (6 * s / 99)) in
           (x, norm_pdf x conv (Fin s)))
        (seq 0 100).
Proof.
  intros V Hs s. unfold curve_of. rewrite (sd_of_valid _ _ V Hs).
  fold s. rewrite linspace_fin, map_map. reflexivity.
Qed.

Lemma nth_error_map_seq {B : Type} (f : nat -> B) (n i : nat) :
  (i < n)%nat -> nth_error (map f (seq 0 n)) i = Some (f i).
Proof.
  intros H. rewrite nth_error_map.
  rewrite (nth_error_nth' _ 0%nat) by (rewrite length_seq; exact H).
  rewrite seq_nth by exact H. reflexivity.
Qed.

Lemma norm_pdf_mirror (c x : R) (s : pyfloat) :
  norm_pdf (Fin (2 * c - x)) c s = norm_pdf (Fin x) c s.
Proof.
  unfold norm_pdf. destruct s as [s|]; [|reflexivity].
  destruct (Rlt_dec 0 s) as [Hs|_]; [|reflexivity].
  do 3 f_equal. rewrite <- (NormalCDF.gauss_even ((x - c) / s)).
  f_equal. field. lra.
Qed.

(** X18: for a rate in [0,1] and a size of at least 1, a curve has 100
    points; its abscissas are numbers that start at [conv - 3 * sd], end
    at [conv + 3 * sd] and stay between the two. *)
Theorem curve_of_grid (conv : R) (size : Z) :
  valid_rate conv -> (1 <= size)%Z ->
  let s := sqrt (variance_of conv size) in
  List.length (curve_of conv size) = 100%nat
  /\ nth_error (map fst (curve_of conv size)) 0 = Some (Fin (conv - 3 * s))
  /\ nth_error (map fst (curve_of conv size)) 99 = Some (Fin (conv + 3 * s))
  /\ forall x, In x (map fst (curve_of conv size)) ->
               exists r, x = Fin r /\ conv - 3 * s <= r <= conv + 3 * s.
Proof.
  intros V Hs s. pose proof (curve_of_valid conv size V Hs) as E.
  cbv zeta in E. fold s in E. rewrite E, map_map. cbn [fst].
  assert (S0 : 0 <= s) by apply sqrt_pos.
  split; [now rewrite length_map, length_seq|].
  split; [rewrite nth_error_map_seq by lia; do 2 f_equal; simpl; field|].
  split.
  - rewrite nth_error_map_seq by lia. do 2 f_equal.
    rewrite INR_IZR_INZ. simpl Z.of_nat. field.
  - intros x Hx. apply in_map_iff in Hx as [i [<- Hi]].
    apply in_seq in Hi. eexists. split; [reflexivity|].
    assert (0 <= INR i) by apply pos_INR.
    assert (INR i <= 99).
    { replace 99 with (INR 99) by (rewrite INR_IZR_INZ; reflexivity).
      apply le_INR. lia. }
    split; nra.
Qed.

Lemma curve_of_grid_witness :
  List.length (curve_of (1 / 10) 1000) = 100%nat.
Proof.
  apply (curve_of_grid (1 / 10) 1000); [unfold valid_rate; lra|lia].
Defined.

(** X19: for a rate in [0,1] and a size of at least 1, a curve is
    symmetric about the rate: the point at position [99 - i] mirrors the
    point at position [i] and has the same ordinate. *)
Theorem curve_of_symmetric (conv : R) (size : Z) (i : nat) :
  valid_rate conv -> (1 <= size)%Z -> (i < 100)%nat ->
  exists x y,
    nth_error (curve_of conv size) i = Some (Fin x, y)
    /\ nth_error (curve_of conv size) (99 - i) = Some (Fin (2 * conv - x), y).
Proof.
  intros V Hs Hi. pose proof (curve_of_valid conv size V Hs) as E.
  cbv zeta in E. rewrite E.
  set (s := sqrt (variance_of conv size)).
  rewrite !nth_error_map_seq by lia.
  do 2 eexists. split; [reflexivity|].
  assert (Ei : INR (99 - i) = 99 - INR i).
  { rewrite minus_INR by lia. f_equal. rewrite INR_IZR_INZ. reflexivity. }
  rewrite Ei.
  replace (conv - 3 * s + (99 - INR i) * (6 * s / 99))
    with (2 * conv - (conv - 3 * s + INR i * (6 * s / 99))) by field.
  now rewrite norm_pdf_mirror.
Qed.

Lemma curve_of_symmetric_witness :
  exists x y,
    nth_error (curve_of (1 / 10) 1000) 7 = Some (Fin x, y)
    /\ nth_error (curve_of (1 / 10) 1000) 92
       = Some (Fin (2 * (1 / 10) - x), y).
Proof.
  apply (curve_of_symmetric (1 / 10) 1000 7);
    [unfold valid_rate; lra|lia|lia].
Defined.

(** X20: a group in which nobody or everybody converted has standard
    deviation 0: its curve is 100 times the point at the rate itself with
    NaN as ordinate. *)
Theorem curve_of_extreme_rate (conv : R) (size : Z) :
  (1 <= size)%Z -> conv = 0 \/ conv = 1 ->
  curve_of conv size = repeat (Fin conv, NaN) 100.
Proof.
  intros Hs Hc.
  assert (V : valid_rate conv) by (unfold valid_rate; destruct Hc; lra).
  pose proof (curve_of_valid conv size V Hs) as E. cbv zeta in E. rewrite E.
  assert (Z0 : sqrt (variance_of conv size) = 0).
  { unfold variance_of. apply IZR_le in Hs.
    replace ((1 - conv) * conv / IZR size) with 0
      by (destruct Hc as [-> | ->]; field; lra).
    apply sqrt_0. }
  rewrite Z0.
  assert (P : forall i : nat,
             (let x := Fin (conv - 3 * 0 + INR i * (6 * 0 / 99)) in
              (x, norm_pdf x conv (Fin 0))) = (Fin conv, NaN)).
  { intros i. cbv zeta. f_equal.
    - f_equal. field.
    - unfold norm_pdf. destruct (Rlt_dec 0 0); [lra|reflexivity]. }
  rewrite (map_ext _ (fun _ => (Fin conv, NaN)) P).
  assert (C : forall len start : nat,
             map (fun _ : nat => (Fin conv, NaN)) (seq start len)
             = repeat (Fin conv, NaN) len).
  { induction len as [|len IH]; intros start; [reflexivity|].
    cbn [seq map repeat]. f_equal. apply IH. }
  apply C.
Qed.

Lemma curve_of_extreme_rate_witness :
  curve_of 0 500 = repeat (Fin 0, NaN) 100.
Proof. apply (curve_of_extreme_rate 0 500); [lia|now left]. Defined.

(** X21: for a rate strictly between 0 and 1 and a size of at least 1,
    every ordinate of the curve is a positive number, at most the density
    at the mean, [1 / (sd * sqrt (2 * PI))]. *)
Theorem curve_of_ordinates (conv : R) (size : Z) :
  0 < conv < 1 -> (1 <= size)%Z ->
  let s := sqrt (variance_of conv size) in
  0 < s
  /\ forall y, In y (map snd (curve_of conv size)) ->
               exists r, y = Fin r /\ 0 < r <= 1 / (s * sqrt (2 * PI)).
Proof.
  intros Hc Hs s.
  assert (V : valid_rate conv) by (unfold valid_rate; lra).
  assert (Ps : 0 < s).
  { unfold s, variance_of. apply sqrt_lt_R0. apply IZR_le in Hs.
    apply Rdiv_lt_0_compat; [nra|lra]. }
  split; [exact Ps|].
  pose proof (curve_of_valid conv size V Hs) as E. cbv zeta in E.
  fold s in E. rewrite E, map_map. cbn [snd].
  intros y Hy. apply in_map_iff in Hy as [i [<- _]].
  unfold norm_pdf. destruct (Rlt_dec 0 s) as [_|N]; [|contradiction].
  eexists. split; [reflexivity|].
  assert (Pp : 0 < sqrt (2 * PI)).
  { apply sqrt_lt_R0. pose proof PI_RGT_0. lra. }
  set (z := (conv - 3 * s + INR i * (6 * s / 99) - conv) / s).
  pose proof (NormalCDF.gauss_pos z) as G0.
  pose proof (NormalCDF.gauss_le_1 z) as G1.
  assert (Pi : 0 < / (s * sqrt (2 * PI)))
    by (apply Rinv_0_lt_compat; nra).
  replace (NormalCDF.gauss z / sqrt (2 * PI) / s)
    with (NormalCDF.gauss z * / (s * sqrt (2 * PI))) by (field; lra).
  replace (1 / (s * sqrt (2 * PI))) with (1 * / (s * sqrt (2 * PI)))
    by (field; lra).
  split; nra.
Qed.

Lemma curve_of_ordinates_witness :
  0 < sqrt (variance_of (1 / 10) 1000).
Proof.
  apply (curve_of_ordinates (1 / 10) 1000); [lra|lia].
Defined.

(** X22: the scale that [get_pvalue] passes to [norm.cdf] is built from
    the two standard deviations of the plot: for rates in [0,1] and sizes
    of at least 1 the pooled standard error is
    [sqrt (a_sd * a_sd + b_sd * b_sd)]. *)
Theorem standard_error_of_plot_deviations (ca cb : R) (na nb : Z) :
  valid_rate ca -> valid_rate cb -> (1 <= na)%Z -> (1 <= nb)%Z ->
  exists sa sb,
    sd_of ca na = Fin sa /\ sd_of cb nb = Fin sb
    /\ standard_error ca cb na nb = sqrt (sa * sa + sb * sb)
    /\ get_pvalue ca cb na nb
       = (let p := py_mul 2 (norm_cdf (- Rabs (cb - ca)) 0
                                      (sqrt (sa * sa + sb * sb))) in
          Val (p, verdict p)).
Proof.
  intros Va Vb Ha Hb.
  exists (sqrt (variance_of ca na)), (sqrt (variance_of cb nb)).
  split; [now apply sd_of_valid|]. split; [now apply sd_of_valid|].
  pose proof (variance_of_nonneg ca na Va Ha) as Pa.
  pose proof (variance_of_nonneg cb nb Vb Hb) as Pb.
  rewrite !sqrt_sqrt by assumption.
  assert (Es : standard_error ca cb na nb
               = sqrt (variance_of ca na + variance_of cb nb)).
  { unfold standard_error, scale_of, variance_of. f_equal.
    apply IZR_le in Ha, Hb. field. lra. }
  split; [exact Es|].
  rewrite <- Es. apply get_pvalue_unfold; try lia.
  assert (Qa : (0 < na)%Z) by lia. assert (Qb : (0 < nb)%Z) by lia.
  pose proof (scale_of_nonneg Va Qa). pose proof (scale_of_nonneg Vb Qb).
  lra.
Qed.

Lemma standard_error_of_plot_deviations_witness :
  exists sa sb,
    sd_of (1 / 10) 1000 = Fin sa /\ sd_of (13 / 100) 1000 = Fin sb
    /\ standard_error (1 / 10) (13 / 100) 1000 1000
       = sqrt (sa * sa + sb * sb).
Proof.
  destruct (standard_error_of_plot_deviations (1 / 10) (13 / 100) 1000 1000)
    as [sa [sb [Ea [Eb [Es _]]]]]; try lia; try (unfold valid_rate; lra).
  exists sa, sb. repeat split; assumption.
Defined.

(** X23: on 0/1 coded data, whenever the extraction cell returns, the
    plot cell draws two curves of 100 points each, and no abscissa of
    either curve is NaN. *)
Theorem plot_distributions_curves (df : dataframe) (g : groups) :
  coded_01 df -> extract_groups df = Val g ->
  exists curve_a curve_b,
    plot_distributions df = Val (curve_a, curve_b)
    /\ List.length curve_a = 100%nat /\ List.length curve_b = 100%nat
    /\ forall x, In x (map fst curve_a) \/ In x (map fst curve_b) -> x <> NaN.
Proof.
  intros Hc E. unfold plot_distributions. rewrite E. cbn [bind].
  destruct (extract_groups_Val df g E) as [U [_ [Sa [Sb [Ca Cb]]]]].
  apply two_labels_facts in U as [_ [Pa [Pb _]]].
  assert (Va : valid_rate (Q2R (a_conv g)))
    by (rewrite Ca; now apply group_conv_valid).
  assert (Vb : valid_rate (Q2R (b_conv g)))
    by (rewrite Cb; now apply group_conv_valid).
  assert (Ha : (1 <= a_size g)%Z) by lia.
  assert (Hb : (1 <= b_size g)%Z) by lia.
  do 2 eexists. split; [reflexivity|].
  pose proof (curve_of_valid _ _ Va Ha) as Ea.
  pose proof (curve_of_valid _ _ Vb Hb) as Eb.
  cbv zeta in Ea, Eb. rewrite Ea, Eb.
  split; [now rewrite length_map, length_seq|].
  split; [now rewrite length_map, length_seq|].
  intros x [Hx|Hx]; rewrite map_map in Hx; cbn [fst] in Hx;
    apply in_map_iff in Hx as [i [<- _]]; discriminate.
Qed.

Lemma plot_distributions_curves_witness :
  exists curve_a curve_b,
    plot_distributions rows_small_group_first = Val (curve_a, curve_b)
    /\ List.length curve_a = 100%nat /\ List.length curve_b = 100%nat.
Proof.
  destruct (plot_distributions_curves rows_small_group_first
              (mkGroups "A" "B" 2 1 (1 # 1) (1 # 2)))
    as [ca [cb [E [La [Lb _]]]]].
  - intros r [<-|[<-|[<-|[]]]]; simpl; tauto.
  - reflexivity.
  - exists ca, cb. repeat split; assumption.
Defined.
